(** * The chunking service of chromadbgui

    A shallow embedding of [backend/services/chunking.service.js]
    (class [ChunkingService]: [chunkText], [semanticChunk],
    [configurableChunk], [estimateChunks], [createChunkedDocuments]) and the
    properties of it that the specification states; then of the code
    around it: the batch helper of the store client
    ([CustomChromaService.batchAddDocuments]) and the part of the
    [url-fetch] route that calls the chunking service and the batch helper.

    Conventions of the embedding:
    - a JavaScript string is the list of its UTF-16 code units ([jsstring]),
      so that [.length], [.substring] and [.trim] work on the same units as
      in the source;
    - a JavaScript number that holds an integer is a [Z]; window positions
      can become negative, exactly as in the source;
    - an object used as a dictionary ([metadata]) is a [gmap] from property
      names to values;
    - the [while] loop of [configurableChunk] is run with a budget of
      iterations: [None] means that the budget was used up before the loop
      was left. *)

From Stdlib Require Import ZArith Lia List Ascii String Decimal DecimalNat.
From stdpp Require Import gmap list fin_maps.

Local Open Scope Z_scope.

(** ** JavaScript strings *)

Module JsString.

(** One UTF-16 code unit. *)
Definition codeunit := N.

Definition jsstring := list codeunit.

(** A literal, written as an ASCII string. *)
Definition lit (s : string) : jsstring :=
  List.map N_of_ascii (list_ascii_of_string s).

(** [s.length]. *)
Definition jslength (s : jsstring) : Z := Z.of_nat (length s).

(** U+000A, the only character that the pattern [\n] matches. *)
Definition NL : codeunit := 10%N.

Definition is_newline (c : codeunit) : bool := (c =? NL)%N.

(** The characters removed by [String.prototype.trim]: WhiteSpace
    (TAB, VT, FF, ZWNBSP and the space separators) and LineTerminator
    (LF, CR, LS, PS). *)
Definition is_ws (c : codeunit) : bool :=
  ((c =? 9) || (c =? 10) || (c =? 11) || (c =? 12) || (c =? 13)
   || (c =? 32) || (c =? 160) || (c =? 5760)
   || ((8192 <=? c) && (c <=? 8202))
   || (c =? 8232) || (c =? 8233) || (c =? 8239) || (c =? 8287)
   || (c =? 12288) || (c =? 65279))%N.

Fixpoint trim_start (s : jsstring) : jsstring :=
  match s with
  | [] => []
  | c :: s' => if is_ws c then trim_start s' else s
  end.

Definition trim_end (s : jsstring) : jsstring :=
  rev (trim_start (rev s)).

(** [s.trim()]. *)
Definition trim (s : jsstring) : jsstring := trim_end (trim_start s).

(** [!text || text.trim().length === 0]; the empty string is falsy and
    trims to itself. *)
Definition is_blank (s : jsstring) : bool :=
  match trim s with [] => true | _ => false end.

(** [s.substring(start, end)]: both positions are clamped to
    [0 .. s.length] and swapped when they come in the wrong order. *)
Definition clamp (len z : Z) : Z := Z.min (Z.max z 0) len.

Definition substring (s : jsstring) (start end_ : Z) : jsstring :=
  let len := jslength s in
  let finalStart := clamp len start in
  let finalEnd := clamp len end_ in
  let from := Z.min finalStart finalEnd in
  let to := Z.max finalStart finalEnd in
  take (Z.to_nat (to - from)) (drop (Z.to_nat from) s).

(** The decimal digits of a number, as in a template literal. *)
Fixpoint digits_of_uint (d : Decimal.uint) : jsstring :=
  match d with
  | Decimal.Nil => []
  | Decimal.D0 d' => 48%N :: digits_of_uint d'
  | Decimal.D1 d' => 49%N :: digits_of_uint d'
  | Decimal.D2 d' => 50%N :: digits_of_uint d'
  | Decimal.D3 d' => 51%N :: digits_of_uint d'
  | Decimal.D4 d' => 52%N :: digits_of_uint d'
  | Decimal.D5 d' => 53%N :: digits_of_uint d'
  | Decimal.D6 d' => 54%N :: digits_of_uint d'
  | Decimal.D7 d' => 55%N :: digits_of_uint d'
  | Decimal.D8 d' => 56%N :: digits_of_uint d'
  | Decimal.D9 d' => 57%N :: digits_of_uint d'
  end.

Definition string_of_nat (n : nat) : jsstring :=
  digits_of_uint (Nat.to_uint n).

(** [text.split(/\n\n+/)].  The matcher scans from the left; a separator
    is a maximal run of two or more newlines (the quantifier is greedy),
    a lone newline stays in its segment.  [in_sep] is set while the scan
    is inside a separator, [cur] is the segment collected so far. *)
Fixpoint split_go (in_sep : bool) (cur : jsstring) (s : jsstring)
  : list jsstring :=
  match s with
  | [] => [cur]
  | c :: s' =>
      if is_newline c then
        if in_sep then split_go true cur s'
        else
          match s' with
          | c2 :: _ =>
              if is_newline c2 then cur :: split_go true [] s'
              else split_go false (cur ++ [c]) s'
          | [] => split_go false (cur ++ [c]) s'
          end
      else split_go false (cur ++ [c]) s'
  end.

Definition split_paragraphs (s : jsstring) : list jsstring :=
  split_go false [] s.

End JsString.

Import JsString.

(** ** Data model *)

(** [{ text, index }] *)
Record Chunk := mkChunk { chunk_text : jsstring; chunk_index : Z }.

(** The [options] argument.  A field that the caller left out is [None]. *)
Record Options := mkOptions {
  opt_mode : option jsstring;
  opt_chunkSize : option Z;
  opt_overlap : option Z
}.

(** Values stored in a metadata object. *)
Inductive MetaValue :=
| MStr (s : jsstring)
| MNum (n : Z)
| MBool (b : bool)
| MNull.

(** [{ id, text, metadata }] *)
Record ChunkedDocument := mkDocument {
  doc_id : jsstring;
  doc_text : jsstring;
  doc_metadata : gmap jsstring MetaValue
}.

(** A number returned by [estimateChunks]: an integer, or what a division
    by zero leaves behind. *)
Inductive JsNumber :=
| Num (z : Z)
| PosInfinity
| NegInfinity
| NaN.

(** ** Defaults *)

(** [x || d] for a numeric option: [undefined] and [0] are falsy. *)
Definition num_or (x : option Z) (d : Z) : Z :=
  match x with
  | Some z => if z =? 0 then d else z
  | None => d
  end.

(** [options.mode || 'configurable']: [undefined] and [''] are falsy. *)
Definition mode_or_default (o : Options) : jsstring :=
  match opt_mode o with
  | Some (c :: m) => c :: m
  | _ => lit "configurable"
  end.

Definition is_semantic (o : Options) : bool :=
  bool_decide (mode_or_default o = lit "semantic").

(** [options.chunkSize || 500] and [options.overlap || 50]. *)
Definition chunkSize_of (o : Options) : Z := num_or (opt_chunkSize o) 500.
Definition overlap_of (o : Options) : Z := num_or (opt_overlap o) 50.

(** ** semanticChunk *)

Definition index_chunks (ps : list jsstring) : list Chunk :=
  imap (fun index paragraph => mkChunk paragraph (Z.of_nat index)) ps.

Definition nonempty (p : jsstring) : bool := 0 <? jslength p.

Definition semanticChunk (text : jsstring) : list Chunk :=
  if is_blank text then []
  else
    let paragraphs :=
      List.filter nonempty (List.map trim (split_paragraphs text)) in
    match paragraphs with
    | [] => [mkChunk (trim text) 0]
    | _ :: _ => index_chunks paragraphs
    end.

(** ** configurableChunk *)

(** The variables that the [while] loop updates. *)
Record LoopState := mkLoop {
  startIndex : Z;
  chunkIndex : Z;
  chunks : list Chunk
}.

Inductive Outcome :=
| Continue (st : LoopState)
| Return (result : list Chunk).

Section Loop.

Variable text : jsstring.
Variables chunkSize overlap : Z.

Definition endIndex_of (st : LoopState) : Z :=
  Z.min (startIndex st + chunkSize) (jslength text).

(** The window that one iteration extracts, before trimming. *)
Definition window_of (st : LoopState) : jsstring :=
  substring text (startIndex st) (endIndex_of st).

(** The body of the loop, up to the assignment to [startIndex]. *)
Definition loop_body (st : LoopState) : LoopState :=
  let endIndex := endIndex_of st in
  let chunkText := substring text (startIndex st) endIndex in
  let st1 :=
    if 0 <? jslength (trim chunkText) then
      mkLoop (startIndex st) (chunkIndex st + 1)
             (chunks st ++ [mkChunk (trim chunkText) (chunkIndex st)])
    else st in
  mkLoop (endIndex - overlap) (chunkIndex st1) (chunks st1).

(** One turn: the [while] test, the body, the [break] test. *)
Definition loop_iteration (st : LoopState) : Outcome :=
  if startIndex st <? jslength text then
    let st' := loop_body st in
    if jslength text <=? startIndex st' then Return (chunks st')
    else Continue st'
  else Return (chunks st).

Fixpoint while_loop (fuel : nat) (st : LoopState) : option (list Chunk) :=
  match fuel with
  | O => None
  | S fuel' =>
      match loop_iteration st with
      | Return result => Some result
      | Continue st' => while_loop fuel' st'
      end
  end.

(** The state at the head of the [n]-th turn, when the loop gets there. *)
Fixpoint state_at (n : nat) (st : LoopState) : option LoopState :=
  match n with
  | O => Some st
  | S n' =>
      match loop_iteration st with
      | Return _ => None
      | Continue st' => state_at n' st'
      end
  end.

End Loop.

Definition initial_state : LoopState := mkLoop 0 0 [].

Definition configurableChunk (fuel : nat) (text : jsstring) (o : Options)
  : option (list Chunk) :=
  let chunkSize := chunkSize_of o in
  let overlap := overlap_of o in
  if is_blank text then Some []
  else while_loop text chunkSize overlap fuel initial_state.

(** ** chunkText *)

Definition chunkText (fuel : nat) (text : jsstring) (o : Options)
  : option (list Chunk) :=
  if is_semantic o then Some (semanticChunk text)
  else configurableChunk fuel text o.

(** ** estimateChunks *)

(** [Math.ceil(a / b)] for integers [a] and [b]; the quotient of two
    integers below 2^53 is rounded to an integer only when it is one, so
    the ceiling of the double is the ceiling of the fraction. *)
Definition ceiling (a b : Z) : Z := - ((- a) / b).

Definition ceil_div (a b : Z) : JsNumber :=
  if b =? 0 then
    if 0 <? a then PosInfinity else if a <? 0 then NegInfinity else NaN
  else Num (ceiling a b).

Definition js_succ (x : JsNumber) : JsNumber :=
  match x with
  | Num z => Num (z + 1)
  | other => other
  end.

Definition estimateChunks (text : jsstring) (o : Options) : JsNumber :=
  if is_blank text then Num 0
  else if is_semantic o then
    let paragraphs :=
      List.filter (fun p => 0 <? jslength (trim p)) (split_paragraphs text) in
    Num (Z.max 1 (Z.of_nat (length paragraphs)))
  else
    let chunkSize := chunkSize_of o in
    let overlap := overlap_of o in
    let textLength := jslength text in
    if textLength <=? chunkSize then Num 1
    else
      let step := chunkSize - overlap in
      js_succ (ceil_div (textLength - chunkSize) step).

(** ** createChunkedDocuments *)

(** The object literal of the metadata: the spread of [baseMetadata] comes
    first, the four properties written after it replace what it held. *)
Definition chunk_metadata (baseId : jsstring) (o : Options)
    (baseMetadata : gmap jsstring MetaValue) (totalChunks : Z) (index : nat)
  : gmap jsstring MetaValue :=
  <[lit "chunk_mode" := MStr (mode_or_default o)]>
    (<[lit "total_chunks" := MNum totalChunks]>
       (<[lit "chunk_index" := MNum (Z.of_nat index + 1)]>
          (<[lit "parent_doc_id" := MStr baseId]> baseMetadata))).

Definition chunk_document (baseId : jsstring) (o : Options)
    (baseMetadata : gmap jsstring MetaValue) (totalChunks : Z)
    (index : nat) (chunk : Chunk) : ChunkedDocument :=
  let chunkId := baseId ++ lit "_chunk_" ++ string_of_nat (index + 1) in
  mkDocument chunkId (chunk_text chunk)
             (chunk_metadata baseId o baseMetadata totalChunks index).

Definition createChunkedDocuments (fuel : nat) (baseId text : jsstring)
    (o : Options) (baseMetadata : gmap jsstring MetaValue)
  : option (list ChunkedDocument) :=
  match chunkText fuel text o with
  | None => None
  | Some chunks =>
      let totalChunks := Z.of_nat (length chunks) in
      Some (imap (chunk_document baseId o baseMetadata totalChunks) chunks)
  end.

(** ** Options of the scenarios *)

Definition semantic_opts : Options := mkOptions (Some (lit "semantic")) None None.

Definition configurable_opts (size ov : Z) : Options :=
  mkOptions (Some (lit "configurable")) (Some size) (Some ov).

Definition scenario_B_text : jsstring :=
  lit "Hello world. This is a test sentence that is definitely longer than ten characters.".

(** The loop variables at the head of the third turn of scenario B. *)
Definition scenario_B_turn_2 : LoopState :=
  mkLoop 16 2 [mkChunk (lit "Hello worl") 0; mkChunk (lit "rld. This") 1].

(** ** The words of the specification, for semantic mode *)

Module SemanticSpec.

Definition starts_with_newline (s : jsstring) : bool :=
  match s with
  | c :: _ => is_newline c
  | [] => false
  end.

Fixpoint drop_newlines (s : jsstring) : jsstring :=
  match s with
  | c :: s' => if is_newline c then drop_newlines s' else s
  | [] => []
  end.

(** The text up to the first run of two or more newlines, and what
    follows that run when there is one. *)
Fixpoint until_break (s : jsstring) : jsstring * option jsstring :=
  match s with
  | [] => ([], None)
  | c :: s' =>
      if is_newline c && starts_with_newline s'
      then ([], Some (drop_newlines s'))
      else let '(p, rest) := until_break s' in (c :: p, rest)
  end.

(** A paragraph break occurs in the text. *)
Definition has_break (s : jsstring) : bool :=
  match until_break s with
  | (_, Some _) => true
  | (_, None) => false
  end.

Fixpoint segments_upto (n : nat) (s : jsstring) : list jsstring :=
  match n with
  | O => []
  | S n' =>
      match until_break s with
      | (p, None) => [p]
      | (p, Some rest) => p :: segments_upto n' rest
      end
  end.

(** The segments between the runs of two or more newlines. *)
Definition segments (s : jsstring) : list jsstring :=
  segments_upto (S (length s)) s.

(** The non-empty trimmed segments, numbered from 0 in their order. *)
Definition paragraph_chunks (s : jsstring) : list Chunk :=
  index_chunks (List.filter nonempty (List.map trim (segments s))).

End SemanticSpec.

(** ** Auxiliary notions, and the inputs of the scenarios *)

Definition all_ws (s : jsstring) : bool := forallb is_ws s.

(** The positions [0, 1, ..., n-1] as JavaScript numbers. *)
Definition positions (n : nat) : list Z := List.map Z.of_nat (seq 0 n).

(** The numbering invariant: the counter is the number of chunks pushed
    and the chunks pushed carry [0, 1, 2, ...]. *)
Definition numbered (st : LoopState) : Prop :=
  chunkIndex st = Z.of_nat (length (chunks st))
  /\ List.map chunk_index (chunks st) = positions (length (chunks st)).

(** The sentence of the specification about the estimate in configurable
    mode, for every caller-supplied positive [chunkSize] and non-negative
    [overlap] below it. *)
Definition estimate_formula_for_nonnegative_overlap : Prop :=
  forall (text : jsstring) (mode : option jsstring) (c v : Z),
    mode = None \/ mode = Some (lit "configurable") ->
    all_ws text = false ->
    0 < c -> 0 <= v -> v < c ->
    estimateChunks text (mkOptions mode (Some c) (Some v))
    = if jslength text <=? c then Num 1
      else Num (ceiling (jslength text - c) (c - v) + 1).

Definition three_paragraphs : jsstring :=
  lit "Para one." ++ [NL; NL] ++ lit "Para two." ++ [NL; NL]
      ++ lit "Para three.".

Definition two_paragraphs : jsstring :=
  lit "Para one." ++ [NL; NL] ++ lit "Para two.".

Definition source_test : gmap jsstring MetaValue :=
  {[ lit "source" := MStr (lit "test") ]}.

(** A base metadata that tries to set two of the lineage fields. *)
Definition clashing_metadata : gmap jsstring MetaValue :=
  <[lit "chunk_index" := MStr (lit "none")]>
    (<[lit "parent_doc_id" := MNull]> source_test).

Definition scenario_D_documents : list ChunkedDocument :=
  [chunk_document (lit "doc1") semantic_opts clashing_metadata 2 0
     (mkChunk (lit "Para one.") 0);
   chunk_document (lit "doc1") semantic_opts clashing_metadata 2 1
     (mkChunk (lit "Para two.") 1)].

(** The sentence of the specification about [chunk_mode]: every produced
    document records the mode that was used, which is ["semantic"] or
    ["configurable"]. *)
Definition chunk_mode_is_mode_used : Prop :=
  forall (fuel : nat) (baseId text : jsstring) (o : Options)
         (bm : gmap jsstring MetaValue) (docs : list ChunkedDocument)
         (d : ChunkedDocument),
    createChunkedDocuments fuel baseId text o bm = Some docs ->
    d ∈ docs ->
    doc_metadata d !! lit "chunk_mode"
    = Some (MStr (if is_semantic o then lit "semantic"
                  else lit "configurable")).

Definition fast_opts : Options :=
  mkOptions (Some (lit "fast")) None (Some (-1)).

Definition recognised (m : option jsstring) : Prop :=
  m = None \/ m = Some [] \/ m = Some (lit "semantic")
  \/ m = Some (lit "configurable").

Ltac key_neq :=
  let H := fresh in intros H; vm_compute in H; discriminate H.

(** ** Notions for the windows of configurable mode *)

(** The number of the first turn whose window ends at [text.length], for
    a text of [len] characters and [0 < overlap < chunkSize]. *)
Definition turns_to_end (len chunkSize overlap : Z) : Z :=
  if len <=? chunkSize then 0
  else ceiling (len - chunkSize) (chunkSize - overlap).

(** [piece] is a run of consecutive characters of [s]. *)
Definition infix_of (piece s : jsstring) : Prop :=
  exists before after : jsstring, s = before ++ piece ++ after.

(** No whitespace at either end, and not empty. *)
Definition trimmed_nonempty (s : jsstring) : Prop :=
  (exists c, head s = Some c /\ is_ws c = false)
  /\ (exists c, last s = Some c /\ is_ws c = false).

(** The segments put back together with the separators between them. *)
Fixpoint interleave (segs seps : list jsstring) : jsstring :=
  match segs, seps with
  | [], _ => []
  | seg :: _, [] => seg
  | seg :: segs', sep :: seps' => seg ++ sep ++ interleave segs' seps'
  end.

(** A run of two or more newlines. *)
Definition newline_run (sep : jsstring) : Prop :=
  (2 <= length sep)%nat /\ Forall (fun c => c = NL) sep.

(** ** The batch helper of the store client
    ([CustomChromaService.batchAddDocuments], [addOrUpdateDocument]) *)

(** A document handed to [batchAddDocuments], as the destructuring
    [{ metadata: metadataObj, embedding: _, ...baseDoc } = doc] sees it:
    [bd_fields] is [baseDoc], the properties other than [metadata] and
    [embedding]; [bd_metadata] is [doc.metadata] when it is an object. *)
Record BatchDocument := mkBatchDocument {
  bd_fields : gmap jsstring MetaValue;
  bd_metadata : option (gmap jsstring MetaValue)
}.

(** [additional_params] of a request; [resource_id] is [None] when
    [documentToSend[idField]] is [undefined]. *)
Record AdditionalParams := mkAdditionalParams {
  resource_id : option MetaValue;
  resource_type : jsstring;
  event_type : jsstring
}.

(** The body posted to [/add_update].  [metadata] is the array of field
    names, kept here as the set of the names: their order in the array is
    the order of insertion into the object, which a map does not hold. *)
Record AddUpdateBody := mkAddUpdateBody {
  collection_name : jsstring;
  id_field : jsstring;
  document : gmap jsstring MetaValue;
  metadata : gset jsstring;
  additional_params : AdditionalParams
}.

(** [{ success: true, data }] or [{ success: false, error }]. *)
Inductive CallResult (R : Type) :=
| Success (data : R)
| Failure (error : jsstring).

Arguments Success {R} data.
Arguments Failure {R} error.

(** What [batchAddDocuments] returns. *)
Record BatchResult (R : Type) := mkBatchResult {
  success : bool;
  successful : Z;
  failed : Z;
  results : list R;
  errors : list (BatchDocument * jsstring)
}.

Arguments mkBatchResult {R}.
Arguments success {R}.
Arguments successful {R}.
Arguments failed {R}.
Arguments results {R}.
Arguments errors {R}.

(** [if (metadataObj && typeof metadataObj === 'object' &&
    Object.keys(metadataObj).length > 0)] *)
Definition has_metadata_fields (doc : BatchDocument) : bool :=
  match bd_metadata doc with
  | Some metadataObj => 0 <? Z.of_nat (size metadataObj)
  | None => false
  end.

(** [documentToSend]: the copy of [baseDoc], with the metadata fields
    assigned over it. *)
Definition documentToSend (doc : BatchDocument) : gmap jsstring MetaValue :=
  match bd_metadata doc with
  | Some metadataObj =>
      if has_metadata_fields doc then metadataObj ∪ bd_fields doc
      else bd_fields doc
  | None => bd_fields doc
  end.

Definition metadataFields (doc : BatchDocument) : gset jsstring :=
  match bd_metadata doc with
  | Some metadataObj =>
      if has_metadata_fields doc then dom metadataObj else ∅
  | None => ∅
  end.

(** The body that [addOrUpdateDocument] builds for one document of the
    batch. *)
Definition add_update_body (collectionName idField : jsstring)
    (doc : BatchDocument) : AddUpdateBody :=
  mkAddUpdateBody collectionName idField (documentToSend doc)
    (metadataFields doc)
    (mkAdditionalParams (documentToSend doc !! idField) (lit "document")
                        (lit "add")).

Section Batch.

(** The remote store: a request changes its state and succeeds with the
    data of the response or fails with a message. *)
Variables Server Response : Type.
Variable post_add_update :
  Server -> AddUpdateBody -> Server * CallResult Response.

(** The [for] loop, with its two arrays. *)
Fixpoint batch_loop (srv : Server) (collectionName idField : jsstring)
    (documents : list BatchDocument) (results_ : list Response)
    (errors_ : list (BatchDocument * jsstring))
  : Server * (list Response * list (BatchDocument * jsstring)) :=
  match documents with
  | [] => (srv, (results_, errors_))
  | doc :: rest =>
      let '(srv', result) :=
        post_add_update srv (add_update_body collectionName idField doc) in
      match result with
      | Success data =>
          batch_loop srv' collectionName idField rest (results_ ++ [data])
                     errors_
      | Failure error =>
          batch_loop srv' collectionName idField rest results_
                     (errors_ ++ [(doc, error)])
      end
  end.

(** The fourth parameter of the source, [metadata], is not read by its
    body and is left out. *)
Definition batchAddDocuments (srv : Server) (collectionName : jsstring)
    (documents : list BatchDocument) (idField : jsstring)
  : Server * BatchResult Response :=
  let '(srv', (results_, errors_)) :=
    batch_loop srv collectionName idField documents [] [] in
  (srv',
   mkBatchResult (Z.of_nat (length errors_) =? 0)
                 (Z.of_nat (length results_)) (Z.of_nat (length errors_))
                 results_ errors_).

(** The store after the requests for [documents], one after the other. *)
Definition store_after (srv : Server) (collectionName idField : jsstring)
    (documents : list BatchDocument) : Server :=
  fold_left
    (fun s doc =>
       fst (post_add_update s (add_update_body collectionName idField doc)))
    documents srv.

End Batch.

(** ** The route that fetches a URL and stores its text
    ([POST /api/chroma/collections/:name/documents/url-fetch], from the
    fetched result on) *)

(** JavaScript truthiness of a metadata value. *)
Definition truthy (v : MetaValue) : bool :=
  match v with
  | MStr s => nonempty s
  | MNum n => negb (n =? 0)
  | MBool b => b
  | MNull => false
  end.

(** One row of a fetched CSV. *)
Record FetchedRow := mkFetchedRow {
  row_text : jsstring;
  row_metadata : gmap jsstring MetaValue
}.

(** The successful result of [urlFetcherService.fetchURL], as far as the
    route reads it. *)
Record FetchResult := mkFetchResult {
  fr_type : jsstring;
  fr_text : jsstring;
  fr_metadata : gmap jsstring MetaValue;
  fr_documents : list FetchedRow
}.

(** An element of [documentsToCreate]: [{ id, text, metadata }]. *)
Record RouteDocument := mkRouteDocument {
  rd_id : jsstring;
  rd_text : MetaValue;
  rd_metadata : gmap jsstring MetaValue
}.

(** [doc => ({ id: doc.id, text: doc.metadata.text || doc.text,
    metadata: doc.metadata })] *)
Definition chunk_to_create (doc : ChunkedDocument) : RouteDocument :=
  mkRouteDocument (doc_id doc)
    (match doc_metadata doc !! lit "text" with
     | Some v => if truthy v then v else MStr (doc_text doc)
     | None => MStr (doc_text doc)
     end)
    (doc_metadata doc).

Definition row_to_create (baseId : jsstring)
    (baseMetadata fetchMetadata : gmap jsstring MetaValue)
    (index : nat) (doc : FetchedRow) : RouteDocument :=
  mkRouteDocument (baseId ++ lit "_row_" ++ string_of_nat (index + 1))
    (MStr (row_text doc))
    (fetchMetadata ∪ (row_metadata doc ∪ baseMetadata)).

(** Step 2 of the route: which documents to create. *)
Definition documents_to_create (fuel : nat) (baseId : jsstring)
    (enableChunking : bool) (chunkingOptions : Options)
    (baseMetadata : gmap jsstring MetaValue) (fetchResult : FetchResult)
  : option (list RouteDocument) :=
  if bool_decide (fr_type fetchResult = lit "csv")
     && (0 <? Z.of_nat (length (fr_documents fetchResult)))
  then
    Some (imap (row_to_create baseId baseMetadata (fr_metadata fetchResult))
               (fr_documents fetchResult))
  else
    let fullText := fr_text fetchResult in
    if enableChunking && nonempty fullText then
      match createChunkedDocuments fuel baseId fullText chunkingOptions
              (fr_metadata fetchResult ∪ baseMetadata) with
      | None => None
      | Some chunkedDocs => Some (List.map chunk_to_create chunkedDocs)
      end
    else
      Some [mkRouteDocument baseId (MStr fullText)
              (fr_metadata fetchResult ∪ baseMetadata)].

(** The document as [batchAddDocuments] destructures it. *)
Definition as_batch_document (doc : RouteDocument) : BatchDocument :=
  mkBatchDocument
    (<[lit "text" := rd_text doc]> {[ lit "id" := MStr (rd_id doc) ]})
    (Some (rd_metadata doc)).

(** The answers of the route after the fetch. *)
Inductive RouteResponse (R : Type) :=
| NoContent400
| Created201 (data : BatchResult R) (documentsCreated : Z)
| Failed500 (data : BatchResult R).

Arguments NoContent400 {R}.
Arguments Created201 {R} data documentsCreated.
Arguments Failed500 {R} data.

Section Route.

Variables Server Response : Type.
Variable post_add_update :
  Server -> AddUpdateBody -> Server * CallResult Response.

(** Steps 2 and 3 of the route. *)
Definition url_fetch_store (fuel : nat) (srv : Server)
    (name baseId : jsstring) (enableChunking : bool)
    (chunkingOptions : Options) (baseMetadata : gmap jsstring MetaValue)
    (fetchResult : FetchResult)
  : option (Server * RouteResponse Response) :=
  match documents_to_create fuel baseId enableChunking chunkingOptions
          baseMetadata fetchResult with
  | None => None
  | Some documentsToCreate =>
      if Z.of_nat (length documentsToCreate) =? 0 then
        Some (srv, NoContent400)
      else
        let '(srv', batchResult) :=
          batchAddDocuments Server Response post_add_update srv name
            (List.map as_batch_document documentsToCreate) (lit "id") in
        if success batchResult then
          Some (srv', Created201 batchResult
                        (Z.of_nat (length documentsToCreate)))
        else Some (srv', Failed500 batchResult)
  end.

End Route.

(** A base metadata that names its own [id]. *)
Definition metadata_with_id : gmap jsstring MetaValue :=
  {[ lit "id" := MStr (lit "page-7") ]}.


(** ** Scenarios of the specification, evaluated *)

Example scenario_A fuel :
  chunkText fuel (lit "") (mkOptions (Some (lit "configurable")) None None)
  = Some [].
Proof. reflexivity. Qed.

Example scenario_C fuel :
  chunkText fuel three_paragraphs semantic_opts
  = Some [mkChunk (lit "Para one.") 0; mkChunk (lit "Para two.") 1;
          mkChunk (lit "Para three.") 2].
Proof. reflexivity. Qed.

Example scenario_D :
  exists d1 d2 : ChunkedDocument,
    createChunkedDocuments 0 (lit "doc1") two_paragraphs semantic_opts
                           source_test = Some [d1; d2]
    /\ doc_id d1 = lit "doc1_chunk_1" /\ doc_id d2 = lit "doc1_chunk_2"
    /\ doc_text d1 = lit "Para one." /\ doc_text d2 = lit "Para two."
    /\ doc_metadata d1 !! lit "source" = Some (MStr (lit "test"))
    /\ doc_metadata d2 !! lit "total_chunks" = Some (MNum 2)
    /\ doc_metadata d2 !! lit "chunk_mode" = Some (MStr (lit "semantic")).
Proof.
  eexists _, _. split; [reflexivity|]. repeat split; reflexivity.
Qed.

(** Scenario E: 1000 characters, [chunkSize: 500], [overlap: 50]; the
    quotient 500 / 450 rounds up to 2, and one is added. *)
Example scenario_E :
  estimateChunks (repeat 97%N 1000) (configurable_opts 500 50) = Num 3.
Proof. vm_compute. reflexivity. Qed.

Example string_of_nat_examples :
  string_of_nat 1 = lit "1" /\ string_of_nat 12 = lit "12"
  /\ string_of_nat 305 = lit "305".
Proof. repeat split; reflexivity. Qed.

Example split_examples :
  split_paragraphs (lit "") = [ [] ]
  /\ split_paragraphs [NL; NL] = [ []; [] ]
  /\ split_paragraphs (lit "a" ++ [NL] ++ lit "b") = [lit "a" ++ [NL] ++ lit "b"]
  /\ split_paragraphs (lit "a" ++ [NL; NL; NL] ++ lit "b") = [lit "a"; lit "b"]
  /\ split_paragraphs ([NL; NL] ++ lit "a" ++ [NL]) = [ []; lit "a" ++ [NL] ].
Proof. repeat split; reflexivity. Qed.

(** ** Whitespace and trimming *)

Lemma trim_start_nil (s : jsstring) :
  trim_start s = [] <-> all_ws s = true.
Proof.
  induction s as [|c s IH]; simpl; [tauto|].
  destruct (is_ws c) eqn:Hc; simpl; [exact IH|].
  split; [discriminate | discriminate].
Qed.

Lemma all_ws_rev (s : jsstring) : all_ws (rev s) = all_ws s.
Proof.
  unfold all_ws. induction s as [|c s IH]; simpl; [reflexivity|].
  rewrite forallb_app, IH. simpl. rewrite andb_true_r. apply andb_comm.
Qed.

Lemma trim_start_head (s : jsstring) c r :
  trim_start s = c :: r -> is_ws c = false.
Proof.
  induction s as [|d s IH]; simpl; [discriminate|].
  destruct (is_ws d) eqn:Hd; [exact IH|].
  intros [= <- _]. exact Hd.
Qed.

Lemma trim_nil (s : jsstring) : trim s = [] <-> all_ws s = true.
Proof.
  unfold trim, trim_end. rewrite <- trim_start_nil.
  destruct (trim_start s) as [|c r] eqn:Hs; [simpl; tauto|].
  split; [|discriminate].
  intros H. apply (f_equal (@length _)) in H. rewrite length_rev in H.
  apply length_zero_iff_nil, trim_start_nil in H. rewrite all_ws_rev in H.
  simpl in H. rewrite (trim_start_head _ _ _ Hs) in H. discriminate.
Qed.

Lemma is_blank_all_ws (s : jsstring) : is_blank s = all_ws s.
Proof.
  unfold is_blank. destruct (trim s) eqn:Ht.
  - symmetry. apply trim_nil. exact Ht.
  - destruct (all_ws s) eqn:Ha; [|reflexivity].
    apply trim_nil in Ha. congruence.
Qed.

Lemma is_blank_true (s : jsstring) : is_blank s = true <-> trim s = [].
Proof. unfold is_blank. destruct (trim s); split; congruence. Qed.

Lemma nonempty_trim (s : jsstring) : nonempty (trim s) = negb (all_ws s).
Proof.
  rewrite <- is_blank_all_ws. unfold nonempty, is_blank, jslength.
  destruct (trim s); reflexivity.
Qed.

Lemma is_newline_ws c : is_newline c = true -> is_ws c = true.
Proof.
  unfold is_newline, NL. intros H. apply N.eqb_eq in H. subst c. reflexivity.
Qed.

Lemma blank_not_empty_length (s : jsstring) :
  is_blank s = false -> 0 < jslength s.
Proof.
  destruct s; [discriminate|]. unfold jslength. simpl. lia.
Qed.

(** ** The scanner of [split] against the segments of the specification *)

Section SplitLemmas.

Import SemanticSpec.

Lemma split_go_in_separator cur s :
  split_go true cur s = split_go false cur (drop_newlines s).
Proof.
  revert cur. induction s as [|c s IH]; intros cur; [reflexivity|].
  simpl. destruct (is_newline c) eqn:Hc; [apply IH|].
  simpl. rewrite Hc. reflexivity.
Qed.

Lemma split_go_until_break cur s :
  split_go false cur s =
  match until_break s with
  | (p, None) => [cur ++ p]
  | (p, Some rest) => (cur ++ p) :: split_go false [] rest
  end.
Proof.
  revert cur. induction s as [|c s IH]; intros cur.
  - simpl. rewrite app_nil_r. reflexivity.
  - cbn [split_go until_break].
    destruct (is_newline c) eqn:Hc; cbn [andb].
    + destruct s as [|c2 s'].
      * simpl. reflexivity.
      * cbn [starts_with_newline].
        destruct (is_newline c2) eqn:Hc2.
        -- rewrite split_go_in_separator, app_nil_r. reflexivity.
        -- rewrite IH. destruct (until_break (c2 :: s')) as [p [rest|]];
             rewrite <- app_assoc; reflexivity.
    + rewrite IH. destruct (until_break s) as [p [rest|]];
        rewrite <- app_assoc; reflexivity.
Qed.

Lemma drop_newlines_length s : (length (drop_newlines s) <= length s)%nat.
Proof.
  induction s as [|c s IH]; simpl; [lia|].
  destruct (is_newline c); simpl; lia.
Qed.

Lemma until_break_shorter s p rest :
  until_break s = (p, Some rest) -> (length rest < length s)%nat.
Proof.
  revert p. induction s as [|c s IH]; intros p; simpl; [discriminate|].
  destruct (is_newline c && starts_with_newline s).
  - intros [= _ <-]. pose proof (drop_newlines_length s). lia.
  - destruct (until_break s) as [q r] eqn:Hu. intros [= _ ->].
    specialize (IH q eq_refl). lia.
Qed.

Lemma until_break_none s p : until_break s = (p, None) -> p = s.
Proof.
  revert p. induction s as [|c s IH]; intros p; simpl.
  - intros [= <-]. reflexivity.
  - destruct (is_newline c && starts_with_newline s); [discriminate|].
    destruct (until_break s) as [q r]. intros [= <- ->].
    f_equal. apply IH. reflexivity.
Qed.

Lemma split_go_segments n s :
  (length s < n)%nat -> split_go false [] s = segments_upto n s.
Proof.
  revert s. induction n as [|n IH]; intros s Hn; [lia|].
  rewrite split_go_until_break. simpl.
  destruct (until_break s) as [p [rest|]] eqn:Hu; [|reflexivity].
  f_equal. apply IH. apply until_break_shorter in Hu. lia.
Qed.

(** The scanner computes the segments of the specification. *)
Lemma split_paragraphs_segments s : split_paragraphs s = segments s.
Proof. apply split_go_segments. lia. Qed.

Lemma drop_newlines_ws s : all_ws (drop_newlines s) = all_ws s.
Proof.
  induction s as [|c s IH]; [reflexivity|]. simpl.
  destruct (is_newline c) eqn:Hc; [|reflexivity].
  rewrite IH, (is_newline_ws _ Hc). reflexivity.
Qed.

Lemma until_break_ws s :
  all_ws s =
  all_ws (fst (until_break s))
  && match snd (until_break s) with
     | Some rest => all_ws rest
     | None => true
     end.
Proof.
  induction s as [|c s IH]; [reflexivity|]. simpl.
  destruct (is_newline c && starts_with_newline s) eqn:Hb.
  - apply andb_prop in Hb as [Hc _]. simpl.
    rewrite drop_newlines_ws, (is_newline_ws _ Hc). reflexivity.
  - destruct (until_break s) as [p r]. simpl in *.
    rewrite IH, andb_assoc. reflexivity.
Qed.

Lemma segments_upto_ws n s :
  (length s < n)%nat -> forallb all_ws (segments_upto n s) = all_ws s.
Proof.
  revert s. induction n as [|n IH]; intros s Hn; [lia|].
  rewrite (until_break_ws s). simpl.
  destruct (until_break s) as [p [rest|]] eqn:Hu; simpl.
  - rewrite IH; [reflexivity|]. apply until_break_shorter in Hu. lia.
  - reflexivity.
Qed.

Lemma segments_ws s : forallb all_ws (segments s) = all_ws s.
Proof. apply segments_upto_ws. lia. Qed.

Lemma segments_no_break s : has_break s = false -> segments s = [s].
Proof.
  unfold has_break, segments. simpl.
  destruct (until_break s) as [p [rest|]] eqn:Hu; [discriminate|].
  intros _. apply until_break_none in Hu. subst p. reflexivity.
Qed.

Lemma trimmed_paragraphs_nil (l : list jsstring) :
  List.filter nonempty (List.map trim l) = [] <-> forallb all_ws l = true.
Proof.
  induction l as [|p l IH]; simpl; [tauto|].
  rewrite nonempty_trim. destruct (all_ws p); simpl; [exact IH|].
  split; discriminate.
Qed.

End SplitLemmas.

(** ** Numbering of chunks *)

Lemma index_chunks_length ps : length (index_chunks ps) = length ps.
Proof. unfold index_chunks. apply length_imap. Qed.

Lemma index_chunks_lookup ps (i : nat) :
  index_chunks ps !! i = (fun p => mkChunk p (Z.of_nat i)) <$> ps !! i.
Proof. unfold index_chunks. apply list_lookup_imap. Qed.

Lemma index_chunks_text ps : List.map chunk_text (index_chunks ps) = ps.
Proof.
  apply list_eq. intros i.
  change (List.map chunk_text (index_chunks ps)) with (chunk_text <$> index_chunks ps).
  rewrite list_lookup_fmap, index_chunks_lookup.
  destruct (ps !! i); reflexivity.
Qed.

Lemma positions_lookup n (i : nat) :
  (i < n)%nat -> positions n !! i = Some (Z.of_nat i).
Proof.
  intros Hi. unfold positions.
  change (List.map Z.of_nat (seq 0 n)) with (Z.of_nat <$> seq 0 n).
  rewrite list_lookup_fmap, lookup_seq_lt by lia. reflexivity.
Qed.

Lemma positions_snoc n : positions (S n) = positions n ++ [Z.of_nat n].
Proof. unfold positions. rewrite seq_S, map_app. reflexivity. Qed.

Lemma index_chunks_index ps :
  List.map chunk_index (index_chunks ps) = positions (length ps).
Proof.
  apply list_eq. intros i.
  change (List.map chunk_index (index_chunks ps))
    with (chunk_index <$> index_chunks ps).
  rewrite list_lookup_fmap, index_chunks_lookup.
  destruct (ps !! i) eqn:Hi; simpl.
  - apply lookup_lt_Some in Hi. rewrite positions_lookup by lia. reflexivity.
  - apply lookup_ge_None in Hi. symmetry. apply lookup_ge_None.
    unfold positions. rewrite length_map, length_seq. lia.
Qed.

(** ** The loop of [configurableChunk] *)

Section LoopLemmas.

Variable text : jsstring.
Variables chunkSize overlap : Z.

Local Abbreviation body := (loop_body text chunkSize overlap).
Local Abbreviation iteration := (loop_iteration text chunkSize overlap).
Local Abbreviation run := (while_loop text chunkSize overlap).
Local Abbreviation at_turn := (state_at text chunkSize overlap).

Lemma loop_body_start st :
  startIndex (body st) = endIndex_of text chunkSize st - overlap.
Proof. reflexivity. Qed.

Lemma loop_body_chunks st :
  chunks (body st) =
  chunks st ++
    (if nonempty (trim (window_of text chunkSize st))
     then [mkChunk (trim (window_of text chunkSize st)) (chunkIndex st)]
     else []).
Proof.
  unfold loop_body, window_of, nonempty.
  destruct (0 <? jslength (trim _)); simpl; [reflexivity|].
  rewrite app_nil_r. reflexivity.
Qed.

Lemma loop_body_chunkIndex st :
  chunkIndex (body st) =
  chunkIndex st + Z.of_nat (length (chunks (body st)) - length (chunks st)).
Proof.
  rewrite loop_body_chunks. unfold loop_body, window_of, nonempty.
  destruct (0 <? jslength (trim _)); simpl; rewrite length_app; simpl; lia.
Qed.

Lemma endIndex_le st : endIndex_of text chunkSize st <= jslength text.
Proof. unfold endIndex_of. lia. Qed.

(** With a positive overlap the next start is below [text.length]
    whatever the window was: neither the [break] nor the [while] test
    can ever leave the loop. *)
Lemma loop_iteration_continues st :
  0 < overlap -> startIndex st < jslength text ->
  iteration st = Continue (body st)
  /\ startIndex (body st) < jslength text.
Proof.
  intros Hov Hst. unfold loop_iteration.
  pose proof (endIndex_le st) as He.
  assert (Hlt : startIndex (body st) < jslength text)
    by (rewrite loop_body_start; lia).
  split; [|exact Hlt].
  destruct (startIndex st <? jslength text) eqn:H1;
    [|apply Z.ltb_ge in H1; lia].
  destruct (jslength text <=? startIndex (body st)) eqn:H2;
    [apply Z.leb_le in H2; lia | reflexivity].
Qed.

Lemma while_loop_never_left fuel st :
  0 < overlap -> startIndex st < jslength text -> run fuel st = None.
Proof.
  intros Hov. revert st. induction fuel as [|fuel IH]; intros st Hst;
    [reflexivity|].
  simpl. destruct (loop_iteration_continues st Hov Hst) as [-> Hnext].
  apply IH. exact Hnext.
Qed.

(** A larger budget does not change a result. *)
Lemma while_loop_more_fuel fuel fuel' st r :
  run fuel st = Some r -> (fuel <= fuel')%nat -> run fuel' st = Some r.
Proof.
  revert fuel' st. induction fuel as [|fuel IH]; intros fuel' st;
    [discriminate|].
  intros Hrun Hle. destruct fuel' as [|fuel']; [lia|].
  simpl in *. destruct (iteration st); [|exact Hrun].
  apply IH; [exact Hrun | lia].
Qed.

Lemma while_loop_functional fuel1 fuel2 st r1 r2 :
  run fuel1 st = Some r1 -> run fuel2 st = Some r2 -> r1 = r2.
Proof.
  intros H1 H2.
  apply (while_loop_more_fuel _ (Nat.max fuel1 fuel2)) in H1; [|lia].
  apply (while_loop_more_fuel _ (Nat.max fuel1 fuel2)) in H2; [|lia].
  congruence.
Qed.

Lemma state_at_succ n st0 :
  at_turn (S n) st0 =
  match at_turn n st0 with
  | Some st =>
      match iteration st with
      | Continue st' => Some st'
      | Return _ => None
      end
  | None => None
  end.
Proof.
  revert st0. induction n as [|n IH]; intros st0.
  - simpl. destruct (iteration st0); reflexivity.
  - change (at_turn (S (S n)) st0)
      with (match iteration st0 with
            | Return _ => None
            | Continue st' => at_turn (S n) st'
            end).
    change (at_turn (S n) st0)
      with (match iteration st0 with
            | Return _ => None
            | Continue st' => at_turn n st'
            end).
    destruct (iteration st0) as [st'|]; [apply IH | reflexivity].
Qed.

Lemma iteration_continue_inv st st' :
  iteration st = Continue st' ->
  st' = body st /\ startIndex st < jslength text
  /\ startIndex st' < jslength text.
Proof.
  unfold loop_iteration.
  destruct (startIndex st <? jslength text) eqn:H1; [|discriminate].
  destruct (jslength text <=? startIndex (body st)) eqn:H2; [discriminate|].
  intros [= <-]. apply Z.ltb_lt in H1. apply Z.leb_gt in H2. auto.
Qed.

Lemma iteration_return_inv st r :
  iteration st = Return r -> r = chunks st \/ r = chunks (body st).
Proof.
  unfold loop_iteration.
  destruct (startIndex st <? jslength text).
  - destruct (jslength text <=? startIndex (body st)); [|discriminate].
    intros [= <-]. right. reflexivity.
  - intros [= <-]. left. reflexivity.
Qed.

(** Every state that the loop reaches after the first is the body
    applied to the one before, and its start is inside the text. *)
Lemma state_at_inside n st0 st :
  startIndex st0 < jslength text ->
  at_turn n st0 = Some st -> startIndex st < jslength text.
Proof.
  revert st. induction n as [|n IH]; intros st H0.
  - intros [= <-]. exact H0.
  - rewrite state_at_succ. destruct (at_turn n st0) as [stn|]; [|discriminate].
    destruct (iteration stn) as [st'|] eqn:Hi; [|discriminate].
    intros [= <-]. apply iteration_continue_inv in Hi. tauto.
Qed.

Lemma numbered_body st : numbered st -> numbered (body st).
Proof.
  intros [Hc Hm]. unfold numbered.
  rewrite loop_body_chunkIndex, loop_body_chunks.
  destruct (nonempty _); rewrite length_app, map_app, Hm; simpl.
  - replace (length (chunks st) + 1)%nat with (S (length (chunks st))) by lia.
    rewrite positions_snoc, Hc. split; [lia | reflexivity].
  - rewrite Nat.add_0_r, !app_nil_r. split; [lia | reflexivity].
Qed.

Lemma state_at_numbered n st0 st :
  numbered st0 -> at_turn n st0 = Some st -> numbered st.
Proof.
  revert st. induction n as [|n IH]; intros st H0.
  - intros [= <-]. exact H0.
  - rewrite state_at_succ. destruct (at_turn n st0) as [stn|]; [|discriminate].
    destruct (iteration stn) as [st'|] eqn:Hi; [|discriminate].
    intros [= <-]. apply iteration_continue_inv in Hi as [-> _].
    apply numbered_body. apply IH; [exact H0 | reflexivity].
Qed.

Lemma while_loop_numbered fuel st r :
  numbered st -> run fuel st = Some r ->
  List.map chunk_index r = positions (length r).
Proof.
  revert st. induction fuel as [|fuel IH]; intros st Hst; [discriminate|].
  simpl. destruct (iteration st) as [st'|r'] eqn:Hi.
  - apply iteration_continue_inv in Hi as [-> _].
    apply IH. apply numbered_body. exact Hst.
  - intros [= <-]. apply iteration_return_inv in Hi as [-> | ->].
    + apply Hst.
    + apply numbered_body. exact Hst.
Qed.

End LoopLemmas.

Lemma numbered_initial : numbered initial_state.
Proof. split; reflexivity. Qed.

Lemma substring_length (s : jsstring) (a b : Z) :
  jslength (substring s a b) <= Z.abs (b - a).
Proof.
  unfold substring, jslength, clamp.
  rewrite length_take, length_drop. lia.
Qed.

Lemma window_length text chunkSize st :
  0 <= chunkSize -> jslength (window_of text chunkSize st) <= chunkSize.
Proof.
  intros Hcs. unfold window_of.
  unfold substring, endIndex_of, jslength, clamp.
  rewrite length_take, length_drop. lia.
Qed.

(** The window is the slice of the text from the start (from 0 when the
    start is negative) to the end. *)
Lemma window_slice text chunkSize st :
  0 < chunkSize -> startIndex st < jslength text ->
  window_of text chunkSize st
  = take (Z.to_nat (endIndex_of text chunkSize st - Z.max (startIndex st) 0))
         (drop (Z.to_nat (Z.max (startIndex st) 0)) text).
Proof.
  intros Hcs Hst. unfold window_of, substring, endIndex_of, clamp, jslength in *.
  f_equal; [lia | f_equal; lia].
Qed.

Lemma num_or_pos x d : 0 < d -> match x with Some z => 0 <= z | None => True end ->
  0 < num_or x d.
Proof.
  intros Hd. unfold num_or. destruct x as [z|]; [|auto].
  intros Hz. destruct (z =? 0) eqn:E; [exact Hd|]. apply Z.eqb_neq in E. lia.
Qed.

(** For a text that is not blank and a positive overlap (every supplied
    overlap that is not negative gives one, 0 being replaced by 50) no
    budget of iterations lets [configurableChunk] return. *)
Lemma configurableChunk_never_returns fuel text o :
  is_blank text = false -> 0 < overlap_of o ->
  configurableChunk fuel text o = None.
Proof.
  intros Hb Hov. unfold configurableChunk. rewrite Hb.
  apply while_loop_never_left; [exact Hov|].
  simpl. apply blank_not_empty_length. exact Hb.
Qed.

(** ** Termination of configurable mode *)

(** C1.  The specification promises that [chunkText] returns for every
    non-blank text and every configurable-mode options with
    [0 <= overlap < chunkSize].  The loop does not: at the call
    [chunkText("Hello world", {mode: "configurable", chunkSize: 10,
    overlap: 2})] no number of iterations reaches the [return]; after the
    window that ends at [text.length] the start is set to
    [text.length - overlap], which is below [text.length], so the [break]
    that the source places there "to avoid infinite loop" is never taken. *)
Theorem chunkText_valid_options_never_returns :
  forall fuel : nat,
    chunkText fuel (lit "Hello world") (configurable_opts 10 2) = None.
Proof.
  intros fuel.
  change (chunkText fuel (lit "Hello world") (configurable_opts 10 2))
    with (configurableChunk fuel (lit "Hello world") (configurable_opts 10 2)).
  apply configurableChunk_never_returns; reflexivity.
Qed.

(** ** The windows of configurable mode *)

(** C2.  In configurable mode, with [chunkSize] and [overlap] the values
    that the loop uses ([options.chunkSize || 500], [options.overlap || 50]),
    at every turn [n] that the loop reaches:
    the window is taken while the start is inside the text; the first
    window is [text[0 : min(chunkSize, text.length)]] and, when its trimmed
    form is not empty, that trimmed form is the chunk of index 0; the raw
    window is at most [chunkSize] characters long and is the slice of the
    text from the start to the end of the window; the next start is the
    end of this window minus [overlap]; a window that trims to the empty
    string adds no chunk and uses no index, any other adds its trimmed form
    under the next free index; so the indices of the chunks emitted so far,
    and of any sequence that is returned, are [0, 1, 2, ...] without a
    gap. *)
Theorem configurable_windows_and_indices :
  forall (text : jsstring) (o : Options) (n : nat) (st : LoopState),
    is_blank text = false ->
    0 < chunkSize_of o ->
    state_at text (chunkSize_of o) (overlap_of o) n initial_state = Some st ->
    let chunkSize := chunkSize_of o in
    let overlap := overlap_of o in
    let raw := window_of text chunkSize st in
    let next := loop_body text chunkSize overlap st in
    startIndex st < jslength text
    /\ (n = 0%nat ->
        raw = substring text 0 (Z.min chunkSize (jslength text))
        /\ (nonempty (trim raw) = true ->
            chunks next = [mkChunk (trim raw) 0]))
    /\ jslength raw <= chunkSize
    /\ raw = take (Z.to_nat (endIndex_of text chunkSize st
                             - Z.max (startIndex st) 0))
                  (drop (Z.to_nat (Z.max (startIndex st) 0)) text)
    /\ startIndex next = endIndex_of text chunkSize st - overlap
    /\ (forall st', state_at text chunkSize overlap (S n) initial_state
                    = Some st' -> st' = next)
    /\ chunks next =
         chunks st ++
           (if nonempty (trim raw)
            then [mkChunk (trim raw) (Z.of_nat (length (chunks st)))]
            else [])
    /\ List.map chunk_index (chunks st) = positions (length (chunks st))
    /\ List.map chunk_index (chunks next) = positions (length (chunks next))
    /\ (forall fuel r, configurableChunk fuel text o = Some r ->
                       List.map chunk_index r = positions (length r)).
Proof.
  intros text o n st Hb Hcs Hst chunkSize overlap raw next.
  assert (H0 : startIndex initial_state < jslength text)
    by (apply blank_not_empty_length; exact Hb).
  pose proof (state_at_numbered _ _ _ _ _ _ numbered_initial Hst) as Hnum.
  pose proof (numbered_body text chunkSize overlap st Hnum) as Hnum'.
  assert (Hchunks : chunks next =
           chunks st ++
             (if nonempty (trim raw)
              then [mkChunk (trim raw) (Z.of_nat (length (chunks st)))]
              else [])).
  { unfold next. rewrite loop_body_chunks. fold raw.
    destruct Hnum as [-> _]. reflexivity. }
  repeat split.
  - exact (state_at_inside _ _ _ _ _ _ H0 Hst).
  - subst n. injection Hst as <-. reflexivity.
  - intros Hne. subst n. injection Hst as Hst.
    rewrite Hchunks, Hne. subst st. reflexivity.
  - apply window_length. unfold chunkSize. lia.
  - apply window_slice; [exact Hcs|].
    exact (state_at_inside _ _ _ _ _ _ H0 Hst).
  - intros st'. rewrite state_at_succ. fold chunkSize overlap in Hst.
    rewrite Hst.
    destruct (loop_iteration text chunkSize overlap st) as [s|] eqn:Hi;
      [|discriminate].
    intros [= <-]. apply iteration_continue_inv in Hi. tauto.
  - exact Hchunks.
  - apply Hnum.
  - apply Hnum'.
  - intros fuel r. unfold configurableChunk. rewrite Hb.
    apply while_loop_numbered. exact numbered_initial.
Qed.

Lemma configurable_windows_and_indices_witness :
  is_blank scenario_B_text = false
  /\ 0 < chunkSize_of (configurable_opts 10 2)
  /\ state_at scenario_B_text 10 2 2 initial_state = Some scenario_B_turn_2
  /\ startIndex (loop_body scenario_B_text 10 2 scenario_B_turn_2) = 24.
Proof.
  split; [reflexivity|]. split; [reflexivity|]. split; [reflexivity|].
  exact (proj1 (proj2 (proj2 (proj2 (proj2
    (configurable_windows_and_indices scenario_B_text (configurable_opts 10 2)
       2%nat scenario_B_turn_2 eq_refl eq_refl eq_refl)))))).
Defined.

(** ** Blank input *)

(** C4.  For a text that is empty or made of whitespace only, [chunkText]
    returns the empty sequence whatever the options are (semantic mode and
    configurable mode alike) and [estimateChunks] returns 0. *)
Theorem blank_text_gives_nothing :
  forall (fuel : nat) (text : jsstring) (o : Options),
    all_ws text = true ->
    chunkText fuel text o = Some []
    /\ chunkText fuel text semantic_opts = Some []
    /\ chunkText fuel text
         (mkOptions (Some (lit "configurable")) (opt_chunkSize o)
                    (opt_overlap o)) = Some []
    /\ estimateChunks text o = Num 0.
Proof.
  intros fuel text o Hws.
  assert (Hb : is_blank text = true) by (rewrite is_blank_all_ws; exact Hws).
  assert (H : forall o', chunkText fuel text o' = Some []).
  { intros o'. unfold chunkText, semanticChunk, configurableChunk.
    rewrite Hb. destruct (is_semantic o'); reflexivity. }
  repeat split; try apply H.
  unfold estimateChunks. rewrite Hb. reflexivity.
Qed.

Lemma blank_text_gives_nothing_witness :
  all_ws (lit "   " ++ [NL; 9%N]) = true
  /\ chunkText 0 (lit "   " ++ [NL; 9%N]) (configurable_opts 10 2) = Some []
  /\ estimateChunks (lit "   " ++ [NL; 9%N]) (configurable_opts 10 2) = Num 0.
Proof.
  split; [reflexivity|].
  pose proof (blank_text_gives_nothing 0 (lit "   " ++ [NL; 9%N])
                (configurable_opts 10 2) eq_refl) as H.
  split; [exact (proj1 H) | exact (proj2 (proj2 (proj2 H)))].
Defined.

(** ** Semantic mode *)

Lemma is_semantic_mode o :
  opt_mode o = Some (lit "semantic") -> is_semantic o = true.
Proof.
  intros H. unfold is_semantic, mode_or_default. rewrite H. reflexivity.
Qed.

Lemma semanticChunk_paragraph_chunks text :
  semanticChunk text = SemanticSpec.paragraph_chunks text.
Proof.
  unfold semanticChunk, SemanticSpec.paragraph_chunks.
  rewrite split_paragraphs_segments.
  pose proof (trimmed_paragraphs_nil (SemanticSpec.segments text)) as Hnil.
  rewrite segments_ws, <- is_blank_all_ws in Hnil.
  destruct (is_blank text) eqn:Hb.
  - rewrite (proj2 Hnil eq_refl). reflexivity.
  - destruct (List.filter nonempty _) as [|p ps] eqn:Hf; [|reflexivity].
    apply proj1 in Hnil. specialize (Hnil eq_refl). discriminate.
Qed.

(** C3.  In semantic mode [chunkText] returns, for every text, the
    non-empty trimmed segments that lie between the runs of two or more
    newlines, in their order and numbered 0, 1, 2, ...; a text that is not
    blank and has no such run gives the single chunk that holds the whole
    trimmed text under index 0. *)
Theorem semantic_mode_paragraphs :
  forall (fuel : nat) (text : jsstring) (o : Options),
    opt_mode o = Some (lit "semantic") ->
    chunkText fuel text o = Some (SemanticSpec.paragraph_chunks text)
    /\ List.map chunk_text (SemanticSpec.paragraph_chunks text)
       = List.filter nonempty (List.map trim (SemanticSpec.segments text))
    /\ List.map chunk_index (SemanticSpec.paragraph_chunks text)
       = positions (length (SemanticSpec.paragraph_chunks text))
    /\ (all_ws text = false -> SemanticSpec.has_break text = false ->
        chunkText fuel text o = Some [mkChunk (trim text) 0]).
Proof.
  intros fuel text o Hmode.
  assert (Hrun : chunkText fuel text o
                 = Some (SemanticSpec.paragraph_chunks text)).
  { unfold chunkText. rewrite (is_semantic_mode _ Hmode).
    rewrite semanticChunk_paragraph_chunks. reflexivity. }
  split; [exact Hrun|]. split; [apply index_chunks_text|].
  split.
  - unfold SemanticSpec.paragraph_chunks.
    rewrite index_chunks_index, index_chunks_length. reflexivity.
  - intros Hws Hbreak. rewrite Hrun. f_equal.
    unfold SemanticSpec.paragraph_chunks.
    rewrite (segments_no_break _ Hbreak). simpl.
    rewrite nonempty_trim, Hws. reflexivity.
Qed.

Lemma semantic_mode_paragraphs_witness :
  opt_mode semantic_opts = Some (lit "semantic")
  /\ all_ws (lit "one paragraph ") = false
  /\ SemanticSpec.has_break (lit "one paragraph ") = false
  /\ chunkText 0 (lit "one paragraph ") semantic_opts
     = Some [mkChunk (trim (lit "one paragraph ")) 0].
Proof.
  split; [reflexivity|]. split; [reflexivity|]. split; [reflexivity|].
  exact (proj2 (proj2 (proj2
    (semantic_mode_paragraphs 0 (lit "one paragraph ") semantic_opts eq_refl)))
    eq_refl eq_refl).
Defined.

(** ** The estimate *)

Lemma ceiling_bounds a b :
  0 < b -> (ceiling a b - 1) * b < a <= ceiling a b * b.
Proof.
  intros Hb. unfold ceiling.
  pose proof (Z.div_mod (- a) b) as Hdm.
  pose proof (Z.mod_pos_bound (- a) b Hb) as Hm.
  nia.
Qed.

Lemma num_or_supplied z d : z <> 0 -> num_or (Some z) d = z.
Proof.
  intros Hz. unfold num_or. destruct (z =? 0) eqn:E; [|reflexivity].
  apply Z.eqb_eq in E. contradiction.
Qed.

Lemma is_semantic_configurable mode cs ov :
  mode = None \/ mode = Some (lit "configurable") ->
  is_semantic (mkOptions mode cs ov) = false.
Proof. intros [-> | ->]; reflexivity. Qed.

(** C5, as stated, fails: at 300 characters with [chunkSize: 100] and
    [overlap: 0] the formula gives [ceil(200 / 100) + 1 = 3], the code
    replaces the overlap by 50 and returns [ceil(200 / 50) + 1 = 5]. *)
Lemma estimate_formula_fails_at_zero_overlap :
  estimateChunks (repeat 97%N 300) (configurable_opts 100 0) = Num 5
  /\ ~ estimate_formula_for_nonnegative_overlap.
Proof.
  split; [vm_compute; reflexivity|].
  intros H.
  specialize (H (repeat 97%N 300) (Some (lit "configurable")) 100 0
                (or_intror eq_refl) eq_refl).
  specialize (H ltac:(lia) ltac:(lia) ltac:(lia)).
  vm_compute in H. discriminate H.
Qed.

(** C5, amended.  In configurable mode, for every text that is not blank
    and every caller-supplied positive [chunkSize] and positive [overlap]
    below it, [estimateChunks] returns 1 when [text.length <= chunkSize]
    and [ceil((text.length - chunkSize) / (chunkSize - overlap)) + 1]
    otherwise, where the ceiling [q] is the integer with
    [(q - 1) * step < text.length - chunkSize <= q * step]. *)
Theorem estimateChunks_configurable_formula :
  forall (text : jsstring) (mode : option jsstring) (c v : Z),
    mode = None \/ mode = Some (lit "configurable") ->
    all_ws text = false ->
    0 < c -> 0 < v -> v < c ->
    let q := ceiling (jslength text - c) (c - v) in
    estimateChunks text (mkOptions mode (Some c) (Some v))
    = (if jslength text <=? c then Num 1 else Num (q + 1))
    /\ (q - 1) * (c - v) < jslength text - c <= q * (c - v).
Proof.
  intros text mode c v Hmode Hws Hc Hv Hvc q.
  split; [|apply ceiling_bounds; lia].
  unfold estimateChunks.
  rewrite is_blank_all_ws, Hws, (is_semantic_configurable _ _ _ Hmode).
  unfold chunkSize_of, overlap_of. simpl opt_chunkSize. simpl opt_overlap.
  rewrite !num_or_supplied by lia.
  destruct (jslength text <=? c); [reflexivity|].
  unfold ceil_div. destruct (c - v =? 0) eqn:E;
    [apply Z.eqb_eq in E; lia | reflexivity].
Qed.

Lemma estimateChunks_configurable_formula_witness :
  all_ws (repeat 97%N 1000) = false
  /\ estimateChunks (repeat 97%N 1000) (configurable_opts 500 50) = Num 3.
Proof.
  split; [vm_compute; reflexivity|].
  exact (proj1 (estimateChunks_configurable_formula (repeat 97%N 1000)
           (Some (lit "configurable")) 500 50 (or_intror eq_refl)
           ltac:(vm_compute; reflexivity)
           ltac:(reflexivity) ltac:(reflexivity) ltac:(reflexivity))).
Defined.

(** ** Documents *)

Lemma chunkText_numbered fuel text o r :
  chunkText fuel text o = Some r ->
  List.map chunk_index r = positions (length r).
Proof.
  unfold chunkText. destruct (is_semantic o).
  - intros [= <-]. rewrite semanticChunk_paragraph_chunks.
    unfold SemanticSpec.paragraph_chunks.
    rewrite index_chunks_index, index_chunks_length. reflexivity.
  - unfold configurableChunk. destruct (is_blank text).
    + intros [= <-]. reflexivity.
    + apply while_loop_numbered. exact numbered_initial.
Qed.

Lemma chunkText_index_lookup fuel text o r (i : nat) c :
  chunkText fuel text o = Some r -> r !! i = Some c ->
  chunk_index c = Z.of_nat i.
Proof.
  intros Hrun Hi. apply chunkText_numbered in Hrun.
  assert (H : (chunk_index <$> r) !! i = Some (chunk_index c))
    by (rewrite list_lookup_fmap, Hi; reflexivity).
  change (chunk_index <$> r) with (List.map chunk_index r) in H.
  rewrite Hrun, positions_lookup in H by (eapply lookup_lt_Some; eauto).
  congruence.
Qed.

Section Metadata.

Variables (baseId : jsstring) (o : Options).
Variable baseMetadata : gmap jsstring MetaValue.
Variables (totalChunks : Z) (index : nat).

Local Abbreviation meta :=
  (chunk_metadata baseId o baseMetadata totalChunks index).

Lemma metadata_chunk_mode :
  meta !! lit "chunk_mode" = Some (MStr (mode_or_default o)).
Proof. unfold chunk_metadata. apply lookup_insert_eq. Qed.

Lemma metadata_total_chunks :
  meta !! lit "total_chunks" = Some (MNum totalChunks).
Proof.
  unfold chunk_metadata.
  rewrite lookup_insert_ne by key_neq. apply lookup_insert_eq.
Qed.

Lemma metadata_chunk_index :
  meta !! lit "chunk_index" = Some (MNum (Z.of_nat index + 1)).
Proof.
  unfold chunk_metadata.
  rewrite !lookup_insert_ne by key_neq. apply lookup_insert_eq.
Qed.

Lemma metadata_parent_doc_id :
  meta !! lit "parent_doc_id" = Some (MStr baseId).
Proof.
  unfold chunk_metadata.
  rewrite !lookup_insert_ne by key_neq. apply lookup_insert_eq.
Qed.

Lemma metadata_other_key k :
  k <> lit "parent_doc_id" -> k <> lit "chunk_index" ->
  k <> lit "total_chunks" -> k <> lit "chunk_mode" ->
  meta !! k = baseMetadata !! k.
Proof.
  intros H1 H2 H3 H4. unfold chunk_metadata.
  rewrite !lookup_insert_ne by congruence. reflexivity.
Qed.

End Metadata.

Lemma createChunkedDocuments_lookup fuel baseId text o bm cs docs (i : nat) :
  chunkText fuel text o = Some cs ->
  createChunkedDocuments fuel baseId text o bm = Some docs ->
  docs !! i =
  chunk_document baseId o bm (Z.of_nat (length cs)) i <$> cs !! i.
Proof.
  unfold createChunkedDocuments. intros ->. intros [= <-].
  apply list_lookup_imap.
Qed.

Lemma createChunkedDocuments_length fuel baseId text o bm cs docs :
  chunkText fuel text o = Some cs ->
  createChunkedDocuments fuel baseId text o bm = Some docs ->
  length docs = length cs.
Proof.
  unfold createChunkedDocuments. intros ->. intros [= <-].
  apply length_imap.
Qed.

Lemma createChunkedDocuments_returns fuel baseId text o bm :
  is_Some (createChunkedDocuments fuel baseId text o bm)
  <-> is_Some (chunkText fuel text o).
Proof.
  unfold createChunkedDocuments.
  destruct (chunkText fuel text o); split; intros [x Hx]; eauto; discriminate.
Qed.

(** C6.  Whenever [chunkText(text, options)] returns a sequence,
    [createChunkedDocuments] returns a sequence of the same length; its
    [i]-th document has the id [baseId ++ "_chunk_" ++ (i+1)], the text of
    the [i]-th chunk, [parent_doc_id = baseId], [chunk_index = i + 1]
    (which is the chunk's own index plus one) and [total_chunks] equal to
    the common length; an empty chunk sequence gives no document. *)
Theorem createChunkedDocuments_follows_chunks :
  forall (fuel : nat) (baseId text : jsstring) (o : Options)
         (bm : gmap jsstring MetaValue) (cs : list Chunk),
    chunkText fuel text o = Some cs ->
    exists docs : list ChunkedDocument,
      createChunkedDocuments fuel baseId text o bm = Some docs
      /\ length docs = length cs
      /\ (forall (i : nat) (c : Chunk), cs !! i = Some c ->
            exists d : ChunkedDocument,
              docs !! i = Some d
              /\ doc_id d = baseId ++ lit "_chunk_" ++ string_of_nat (i + 1)
              /\ doc_text d = chunk_text c
              /\ doc_metadata d !! lit "parent_doc_id" = Some (MStr baseId)
              /\ doc_metadata d !! lit "chunk_index"
                 = Some (MNum (Z.of_nat i + 1))
              /\ chunk_index c + 1 = Z.of_nat i + 1
              /\ doc_metadata d !! lit "total_chunks"
                 = Some (MNum (Z.of_nat (length cs))))
      /\ (cs = [] -> docs = []).
Proof.
  intros fuel baseId text o bm cs Hrun.
  destruct (createChunkedDocuments fuel baseId text o bm) as [docs|] eqn:Hd;
    [|unfold createChunkedDocuments in Hd; rewrite Hrun in Hd; discriminate].
  exists docs. split; [reflexivity|].
  pose proof (createChunkedDocuments_length _ _ _ _ _ _ _ Hrun Hd) as Hlen.
  split; [exact Hlen|]. split.
  - intros i c Hi.
    exists (chunk_document baseId o bm (Z.of_nat (length cs)) i c).
    rewrite (createChunkedDocuments_lookup _ _ _ _ _ _ _ i Hrun Hd), Hi.
    split; [reflexivity|]. split; [reflexivity|]. split; [reflexivity|].
    simpl. split; [apply metadata_parent_doc_id|].
    split; [apply metadata_chunk_index|].
    split; [|apply metadata_total_chunks].
    rewrite (chunkText_index_lookup _ _ _ _ _ _ Hrun Hi). reflexivity.
  - intros ->. destruct docs; [reflexivity | discriminate].
Qed.

Lemma createChunkedDocuments_follows_chunks_witness :
  chunkText 0 two_paragraphs semantic_opts
  = Some [mkChunk (lit "Para one.") 0; mkChunk (lit "Para two.") 1]
  /\ exists docs,
       createChunkedDocuments 0 (lit "doc1") two_paragraphs semantic_opts
                              source_test = Some docs
       /\ length docs = 2%nat.
Proof.
  split; [reflexivity|].
  destruct (createChunkedDocuments_follows_chunks 0 (lit "doc1")
              two_paragraphs semantic_opts source_test _ eq_refl)
    as (docs & Hd & Hlen & _).
  exists docs. split; [exact Hd | exact Hlen].
Defined.

Lemma document_metadata fuel baseId text o bm docs (i : nat) d :
  createChunkedDocuments fuel baseId text o bm = Some docs ->
  docs !! i = Some d ->
  doc_metadata d
  = chunk_metadata baseId o bm (Z.of_nat (length docs)) i.
Proof.
  intros Hd Hi.
  destruct (chunkText fuel text o) as [cs|] eqn:Hrun;
    [|unfold createChunkedDocuments in Hd; rewrite Hrun in Hd; discriminate].
  rewrite (createChunkedDocuments_length _ _ _ _ _ _ _ Hrun Hd).
  rewrite (createChunkedDocuments_lookup _ _ _ _ _ _ _ i Hrun Hd) in Hi.
  destruct (cs !! i) as [c|]; [|discriminate]. injection Hi as <-.
  reflexivity.
Qed.

(** C7.  Every document that [createChunkedDocuments] produces carries,
    for every [baseMetadata] (also one that has properties named
    [parent_doc_id], [chunk_index], [total_chunks] or [chunk_mode]), the
    four lineage values under the four lineage names and the value of
    [baseMetadata] under every other name: the base fields are merged
    first and the lineage fields written over them. *)
Theorem lineage_fields_win :
  forall (fuel : nat) (baseId text : jsstring) (o : Options)
         (bm : gmap jsstring MetaValue) (docs : list ChunkedDocument)
         (i : nat) (d : ChunkedDocument),
    createChunkedDocuments fuel baseId text o bm = Some docs ->
    docs !! i = Some d ->
    doc_metadata d !! lit "parent_doc_id" = Some (MStr baseId)
    /\ doc_metadata d !! lit "chunk_index" = Some (MNum (Z.of_nat i + 1))
    /\ doc_metadata d !! lit "total_chunks"
       = Some (MNum (Z.of_nat (length docs)))
    /\ doc_metadata d !! lit "chunk_mode" = Some (MStr (mode_or_default o))
    /\ (forall k : jsstring,
          k <> lit "parent_doc_id" -> k <> lit "chunk_index" ->
          k <> lit "total_chunks" -> k <> lit "chunk_mode" ->
          doc_metadata d !! k = bm !! k)
    /\ doc_metadata d =
         <[lit "chunk_mode" := MStr (mode_or_default o)]>
           (<[lit "total_chunks" := MNum (Z.of_nat (length docs))]>
              (<[lit "chunk_index" := MNum (Z.of_nat i + 1)]>
                 (<[lit "parent_doc_id" := MStr baseId]> bm))).
Proof.
  intros fuel baseId text o bm docs i d Hd Hi.
  rewrite (document_metadata _ _ _ _ _ _ _ _ Hd Hi).
  split; [apply metadata_parent_doc_id|].
  split; [apply metadata_chunk_index|].
  split; [apply metadata_total_chunks|].
  split; [apply metadata_chunk_mode|].
  split; [apply metadata_other_key | reflexivity].
Qed.

Lemma lineage_fields_win_witness :
  createChunkedDocuments 0 (lit "doc1") two_paragraphs semantic_opts
                         clashing_metadata = Some scenario_D_documents
  /\ clashing_metadata !! lit "chunk_index" = Some (MStr (lit "none"))
  /\ forall d, scenario_D_documents !! 1%nat = Some d ->
       doc_metadata d !! lit "chunk_index" = Some (MNum 2)
       /\ doc_metadata d !! lit "parent_doc_id" = Some (MStr (lit "doc1"))
       /\ doc_metadata d !! lit "source" = Some (MStr (lit "test")).
Proof.
  split; [reflexivity|]. split; [apply lookup_insert_eq|].
  intros d Hd.
  destruct (lineage_fields_win 0 (lit "doc1") two_paragraphs semantic_opts
              clashing_metadata scenario_D_documents 1 d eq_refl Hd)
    as (Hp & Hi & _ & _ & Hk & _).
  split; [exact Hi|]. split; [exact Hp|].
  rewrite Hk by key_neq. unfold clashing_metadata, source_test.
  rewrite !lookup_insert_ne by key_neq. apply lookup_singleton_eq.
Defined.

(** ** The mode *)

(** C8, as stated, fails: with [{mode: "fast", overlap: -1}] the text
    ["abc"] is chunked in configurable mode (one window, and the negative
    overlap moves the start past the end, so the loop is left), and the
    document records [chunk_mode: "fast"]. *)
Lemma chunk_mode_unrecognised_is_copied :
  createChunkedDocuments 1 (lit "doc1") (lit "abc") fast_opts ∅
  = Some [chunk_document (lit "doc1") fast_opts ∅ 1 0
            (mkChunk (lit "abc") 0)]
  /\ chunkText 1 (lit "abc") fast_opts
     = configurableChunk 1 (lit "abc") fast_opts
  /\ chunk_metadata (lit "doc1") fast_opts ∅ 1 0 !! lit "chunk_mode"
     = Some (MStr (lit "fast"))
  /\ ~ chunk_mode_is_mode_used.
Proof.
  split; [reflexivity|]. split; [reflexivity|].
  split; [apply metadata_chunk_mode|].
  intros H.
  specialize (H 1%nat (lit "doc1") (lit "abc") fast_opts ∅ _
                (chunk_document (lit "doc1") fast_opts ∅ 1 0
                   (mkChunk (lit "abc") 0)) eq_refl).
  specialize (H ltac:(apply list_elem_of_singleton; reflexivity)).
  simpl doc_metadata in H. rewrite metadata_chunk_mode in H.
  vm_compute in H. discriminate H.
Qed.

(** C8, amended.  When [options.mode] is absent, empty or any string other
    than ["semantic"], [chunkText] does what it does under
    [mode: "configurable"] with the same [chunkSize] and [overlap]; every
    document produced by [createChunkedDocuments] has [chunk_mode] equal to
    [options.mode] when that is a non-empty string and to ["configurable"]
    otherwise; and this is the mode used, ["semantic"] or ["configurable"],
    whenever [options.mode] is absent, empty, ["semantic"] or
    ["configurable"]. *)
Theorem chunk_mode_records_requested_mode :
  forall (fuel : nat) (baseId text : jsstring) (o : Options)
         (bm : gmap jsstring MetaValue),
    (opt_mode o <> Some (lit "semantic") ->
     chunkText fuel text o
     = chunkText fuel text
         (mkOptions (Some (lit "configurable")) (opt_chunkSize o)
                    (opt_overlap o))
     /\ chunkText fuel text o = configurableChunk fuel text o)
    /\ (forall docs d,
          createChunkedDocuments fuel baseId text o bm = Some docs ->
          d ∈ docs ->
          doc_metadata d !! lit "chunk_mode"
          = Some (MStr (match opt_mode o with
                        | Some (c :: m) => c :: m
                        | _ => lit "configurable"
                        end)))
    /\ (recognised (opt_mode o) ->
        mode_or_default o
        = if is_semantic o then lit "semantic" else lit "configurable").
Proof.
  intros fuel baseId text o bm. split; [|split].
  - intros Hmode.
    assert (Hs : is_semantic o = false).
    { unfold is_semantic. apply bool_decide_eq_false. intros Heq.
      apply Hmode. unfold mode_or_default in Heq.
      destruct (opt_mode o) as [[|c m]|]; try discriminate Heq.
      rewrite Heq. reflexivity. }
    unfold chunkText. rewrite Hs. split; reflexivity.
  - intros docs d Hd Hin.
    apply list_elem_of_lookup in Hin as [i Hi].
    rewrite (document_metadata _ _ _ _ _ _ _ _ Hd Hi).
    apply metadata_chunk_mode.
  - intros [H | [H | [H | H]]]; unfold is_semantic, mode_or_default;
      rewrite H; reflexivity.
Qed.

Lemma chunk_mode_records_requested_mode_witness :
  opt_mode fast_opts <> Some (lit "semantic")
  /\ chunkText 1 (lit "abc") fast_opts
     = chunkText 1 (lit "abc")
         (mkOptions (Some (lit "configurable")) None (Some (-1)))
  /\ recognised (opt_mode semantic_opts)
  /\ mode_or_default semantic_opts = lit "semantic".
Proof.
  assert (Hne : opt_mode fast_opts <> Some (lit "semantic")) by key_neq.
  split; [exact Hne|].
  split.
  - exact (proj1 (proj1 (chunk_mode_records_requested_mode 1 (lit "doc1")
                           (lit "abc") fast_opts ∅) Hne)).
  - assert (Hrec : recognised (opt_mode semantic_opts))
      by (right; right; left; reflexivity).
    split; [exact Hrec|].
    exact (proj2 (proj2 (chunk_mode_records_requested_mode 0 (lit "doc1")
                           two_paragraphs semantic_opts ∅)) Hrec).
Defined.

(** ** The iteration budget *)

(** The budget given to the loop decides only whether a run gets to its
    [return], never what is returned. *)
Lemma chunkText_functional fuel1 fuel2 text o r1 r2 :
  chunkText fuel1 text o = Some r1 -> chunkText fuel2 text o = Some r2 ->
  r1 = r2.
Proof.
  unfold chunkText, configurableChunk.
  destruct (is_semantic o); [congruence|].
  destruct (is_blank text); [congruence|].
  apply while_loop_functional.
Qed.

(** ** Defaults of the numeric options *)

(** C10.  The numeric options are defaulted when they are falsy, not only
    when they are absent: [overlap: 0] gives the overlap 50 and
    [chunkSize: 0] gives the chunk size 500, so [chunkText] (its loop goes
    through the same states) and [estimateChunks] do with an explicit 0
    what they do when the option is left out; the overlap that the loop
    and the estimate use is never 0. *)
Theorem zero_options_are_defaulted :
  forall (fuel n : nat) (text : jsstring) (o : Options),
    let zero_overlap := mkOptions (opt_mode o) (opt_chunkSize o) (Some 0) in
    let no_overlap := mkOptions (opt_mode o) (opt_chunkSize o) None in
    let zero_size := mkOptions (opt_mode o) (Some 0) (opt_overlap o) in
    let no_size := mkOptions (opt_mode o) None (opt_overlap o) in
    overlap_of zero_overlap = 50
    /\ overlap_of no_overlap = 50
    /\ chunkSize_of zero_size = 500
    /\ chunkSize_of no_size = 500
    /\ chunkText fuel text zero_overlap = chunkText fuel text no_overlap
    /\ chunkText fuel text zero_size = chunkText fuel text no_size
    /\ state_at text (chunkSize_of zero_overlap) (overlap_of zero_overlap) n
                initial_state
       = state_at text (chunkSize_of no_overlap) (overlap_of no_overlap) n
                  initial_state
    /\ state_at text (chunkSize_of zero_size) (overlap_of zero_size) n
                initial_state
       = state_at text (chunkSize_of no_size) (overlap_of no_size) n
                  initial_state
    /\ estimateChunks text zero_overlap = estimateChunks text no_overlap
    /\ estimateChunks text zero_size = estimateChunks text no_size
    /\ overlap_of o <> 0
    /\ chunkSize_of o <> 0.
Proof.
  intros fuel n text o. simpl.
  repeat split; try reflexivity.
  - unfold overlap_of, num_or. destruct (opt_overlap o) as [z|]; [|lia].
    destruct (z =? 0) eqn:E; [lia | apply Z.eqb_neq; exact E].
  - unfold chunkSize_of, num_or. destruct (opt_chunkSize o) as [z|]; [|lia].
    destruct (z =? 0) eqn:E; [lia | apply Z.eqb_neq; exact E].
Qed.

(** ** The two phases of the loop under [0 < overlap < chunkSize] *)

Section Phases.

Variable text : jsstring.
Variables chunkSize overlap : Z.
Hypothesis overlap_positive : 0 < overlap.
Hypothesis overlap_below_size : overlap < chunkSize.
Hypothesis text_not_empty : 0 < jslength text.

Local Abbreviation len := (jslength text).
Local Abbreviation step := (chunkSize - overlap).
Local Abbreviation last_turn := (turns_to_end (jslength text) chunkSize overlap).
Local Abbreviation turn := (state_at text chunkSize overlap).

Lemma turns_to_end_nonneg : 0 <= last_turn.
Proof using All.
  unfold turns_to_end. destruct (len <=? chunkSize) eqn:E; [lia|].
  apply Z.leb_gt in E.
  pose proof (ceiling_bounds (len - chunkSize) step ltac:(lia)). nia.
Qed.

Lemma turns_to_end_reaches : len <= last_turn * step + chunkSize.
Proof using All.
  unfold turns_to_end. destruct (len <=? chunkSize) eqn:E.
  - apply Z.leb_le in E. lia.
  - pose proof (ceiling_bounds (len - chunkSize) step ltac:(lia)). lia.
Qed.

Lemma turns_to_end_least k :
  0 <= k < last_turn -> k * step + chunkSize < len.
Proof using All.
  unfold turns_to_end. destruct (len <=? chunkSize) eqn:E; [lia|].
  pose proof (ceiling_bounds (len - chunkSize) step ltac:(lia)). nia.
Qed.

Lemma turn_succ_body n st :
  turn n initial_state = Some st -> startIndex st < len ->
  turn (S n) initial_state = Some (loop_body text chunkSize overlap st).
Proof using All.
  intros Hn Hst. rewrite state_at_succ, Hn.
  destruct (loop_iteration_continues text chunkSize overlap st
              overlap_positive Hst) as [-> _].
  reflexivity.
Qed.

(** Up to the turn that reaches the end the starts are the multiples of
    [chunkSize - overlap]. *)
Lemma regular_turn (k : nat) :
  Z.of_nat k <= last_turn ->
  exists st, turn k initial_state = Some st
             /\ startIndex st = Z.of_nat k * step.
Proof using All.
  induction k as [|k IH]; intros Hk.
  - exists initial_state. split; reflexivity.
  - destruct IH as (st & Hst & Hstart); [lia|].
    pose proof (turns_to_end_least (Z.of_nat k) ltac:(lia)) as Hlt.
    exists (loop_body text chunkSize overlap st). split.
    + apply turn_succ_body; [exact Hst | nia].
    + rewrite loop_body_start. unfold endIndex_of. rewrite Hstart. nia.
Qed.

Lemma regular_turn_end (k : nat) st :
  Z.of_nat k < last_turn ->
  startIndex st = Z.of_nat k * step ->
  endIndex_of text chunkSize st = startIndex st + chunkSize
  /\ endIndex_of text chunkSize st < len.
Proof using All.
  intros Hk Hstart.
  pose proof (turns_to_end_least (Z.of_nat k) ltac:(lia)) as Hlt.
  unfold endIndex_of. rewrite Hstart. lia.
Qed.

Lemma last_turn_end st :
  startIndex st = last_turn * step ->
  endIndex_of text chunkSize st = len.
Proof using All.
  intros Hstart. pose proof turns_to_end_reaches.
  unfold endIndex_of. rewrite Hstart. lia.
Qed.

(** After it every turn starts at [text.length - overlap]. *)
Lemma tail_turn (m : nat) :
  exists st, turn (S (Z.to_nat last_turn) + m) initial_state = Some st
             /\ startIndex st = len - overlap.
Proof using All.
  pose proof turns_to_end_nonneg as Hq.
  induction m as [|m IH].
  - destruct (regular_turn (Z.to_nat last_turn) ltac:(lia))
      as (st & Hst & Hstart).
    rewrite Z2Nat.id in Hstart by lia.
    exists (loop_body text chunkSize overlap st). rewrite Nat.add_0_r. split.
    + apply turn_succ_body; [exact Hst|].
      exact (state_at_inside text chunkSize overlap _ initial_state st
               text_not_empty Hst).
    + rewrite loop_body_start, (last_turn_end st Hstart). reflexivity.
  - destruct IH as (st & Hst & Hstart).
    exists (loop_body text chunkSize overlap st).
    replace (S (Z.to_nat last_turn) + S m)%nat
      with (S (S (Z.to_nat last_turn) + m)) by lia.
    split.
    + apply turn_succ_body; [exact Hst | lia].
    + rewrite loop_body_start. unfold endIndex_of. lia.
Qed.

Lemma tail_window st :
  startIndex st = len - overlap ->
  window_of text chunkSize st = substring text (len - overlap) len.
Proof using All.
  intros Hstart. unfold window_of, endIndex_of. rewrite Hstart.
  f_equal. lia.
Qed.

End Phases.

Lemma not_all_ws_length text : all_ws text = false -> 0 < jslength text.
Proof.
  intros H. apply blank_not_empty_length. rewrite is_blank_all_ws. exact H.
Qed.

(** X1.  For a text that is not blank and [0 < overlap < chunkSize],
    the number that [estimateChunks] returns in configurable mode is the
    number of windows that the loop of [configurableChunk] takes up to and
    including the first one that ends at [text.length]: the windows before
    it are full ([chunkSize] characters) and start at the multiples of
    [chunkSize - overlap]. *)
Theorem estimate_counts_windows_to_end :
  forall (text : jsstring) (o : Options),
    is_semantic o = false ->
    all_ws text = false ->
    0 < overlap_of o -> overlap_of o < chunkSize_of o ->
    let chunkSize := chunkSize_of o in
    let overlap := overlap_of o in
    exists n : nat,
      estimateChunks text o = Num (Z.of_nat n + 1)
      /\ (exists st,
            state_at text chunkSize overlap n initial_state = Some st
            /\ startIndex st = Z.of_nat n * (chunkSize - overlap)
            /\ endIndex_of text chunkSize st = jslength text)
      /\ (forall k : nat, (k < n)%nat ->
            exists st,
              state_at text chunkSize overlap k initial_state = Some st
              /\ startIndex st = Z.of_nat k * (chunkSize - overlap)
              /\ endIndex_of text chunkSize st = startIndex st + chunkSize
              /\ endIndex_of text chunkSize st < jslength text).
Proof.
  intros text o Hmode Hws Hov Hcs chunkSize overlap.
  pose proof (not_all_ws_length text Hws) as Hlen.
  pose proof (turns_to_end_nonneg text chunkSize overlap Hov Hcs Hlen) as Hq.
  exists (Z.to_nat (turns_to_end (jslength text) chunkSize overlap)).
  rewrite Z2Nat.id by exact Hq. split; [|split].
  - unfold estimateChunks. rewrite is_blank_all_ws, Hws, Hmode.
    fold chunkSize overlap. unfold turns_to_end.
    destruct (jslength text <=? chunkSize); [reflexivity|].
    unfold ceil_div.
    destruct (chunkSize - overlap =? 0) eqn:E; [apply Z.eqb_eq in E; lia|].
    reflexivity.
  - destruct (regular_turn text chunkSize overlap Hov Hcs Hlen
                (Z.to_nat (turns_to_end (jslength text) chunkSize overlap))
                ltac:(lia)) as (st & Hst & Hstart).
    rewrite Z2Nat.id in Hstart by exact Hq.
    exists st. split; [exact Hst|]. split; [exact Hstart|].
    apply (last_turn_end text chunkSize overlap Hov Hcs Hlen). exact Hstart.
  - intros k Hk.
    destruct (regular_turn text chunkSize overlap Hov Hcs Hlen k ltac:(lia))
      as (st & Hst & Hstart).
    exists st. split; [exact Hst|]. split; [exact Hstart|].
    apply (regular_turn_end text chunkSize overlap Hov Hcs Hlen k); [lia|].
    exact Hstart.
Qed.

Lemma estimate_counts_windows_to_end_witness :
  exists n : nat,
    estimateChunks scenario_B_text (configurable_opts 10 2)
    = Num (Z.of_nat n + 1)
    /\ exists st,
         state_at scenario_B_text 10 2 n initial_state = Some st
         /\ endIndex_of scenario_B_text 10 st = jslength scenario_B_text.
Proof.
  destruct (estimate_counts_windows_to_end scenario_B_text
              (configurable_opts 10 2) eq_refl eq_refl eq_refl eq_refl)
    as (n & He & (st & Hst & _ & Hend) & _).
  exists n. split; [exact He|]. exists st. split; [exact Hst | exact Hend].
Defined.

(** X2.  For a text that is not blank (so that [configurableChunk] gets
    past its guard and into the loop) and [0 < overlap < chunkSize], no
    character is left out: every position of the text lies in the window
    of some turn that the loop takes, and the window holds the text's
    character at the matching offset. *)
Theorem every_character_is_in_a_window :
  forall (text : jsstring) (o : Options) (p : nat) (c : codeunit),
    all_ws text = false ->
    0 < overlap_of o -> overlap_of o < chunkSize_of o ->
    text !! p = Some c ->
    let chunkSize := chunkSize_of o in
    let overlap := overlap_of o in
    exists (k : nat) (st : LoopState),
      state_at text chunkSize overlap k initial_state = Some st
      /\ 0 <= startIndex st <= Z.of_nat p
      /\ Z.of_nat p < endIndex_of text chunkSize st
      /\ window_of text chunkSize st !! (p - Z.to_nat (startIndex st))%nat
         = Some c.
Proof.
  intros text o p c _ Hov Hcs Hp chunkSize overlap.
  assert (Hplen : (p < length text)%nat) by (eapply lookup_lt_Some; eauto).
  assert (Hlen : 0 < jslength text) by (unfold jslength; lia).
  pose proof (turns_to_end_nonneg text chunkSize overlap Hov Hcs Hlen) as Hq.
  set (q := turns_to_end (jslength text) chunkSize overlap) in *.
  set (step := chunkSize - overlap).
  assert (Hstep : 0 < step) by (unfold step, chunkSize, overlap; lia).
  pose proof (Z.div_pos (Z.of_nat p) step ltac:(lia) Hstep) as Hd0.
  pose proof (Z.mul_div_le (Z.of_nat p) step Hstep) as Hd1.
  pose proof (Z.mul_succ_div_gt (Z.of_nat p) step Hstep) as Hd2.
  set (k := Z.to_nat (Z.min (Z.of_nat p / step) q)).
  destruct (regular_turn text chunkSize overlap Hov Hcs Hlen k
              ltac:(unfold k; fold q; lia)) as (st & Hst & Hstart).
  fold step in Hstart.
  assert (Hk : Z.of_nat k = Z.min (Z.of_nat p / step) q) by (unfold k; lia).
  assert (Hs0 : 0 <= startIndex st <= Z.of_nat p) by nia.
  assert (He : Z.of_nat p < endIndex_of text chunkSize st).
  { destruct (Z.lt_ge_cases (Z.of_nat p / step) q) as [Hlt | Hge].
    - destruct (regular_turn_end text chunkSize overlap Hov Hcs Hlen k st
                  ltac:(fold q; lia) Hstart) as [-> _].
      rewrite Hstart. fold step. unfold step in *. nia.
    - rewrite (last_turn_end text chunkSize overlap Hov Hcs Hlen st);
        [unfold jslength; lia|].
      rewrite Hstart. fold q. f_equal. lia. }
  exists k, st. split; [exact Hst|]. split; [exact Hs0|]. split; [exact He|].
  rewrite window_slice;
    [|unfold chunkSize; lia
     |exact (state_at_inside text chunkSize overlap _ initial_state st
               Hlen Hst)].
  assert (Hoff : (p - Z.to_nat (startIndex st)
                  < Z.to_nat (endIndex_of text chunkSize st
                              - Z.max (startIndex st) 0))%nat) by lia.
  etrans; [apply lookup_take_lt; exact Hoff|].
  etrans; [apply lookup_drop|].
  replace (Z.to_nat (Z.max (startIndex st) 0)
           + (p - Z.to_nat (startIndex st)))%nat with p by lia.
  exact Hp.
Qed.

Lemma every_character_is_in_a_window_witness :
  exists (k : nat) (st : LoopState),
    state_at scenario_B_text 10 2 k initial_state = Some st
    /\ window_of scenario_B_text 10 st !! (19 - Z.to_nat (startIndex st))%nat
       = Some 115%N.
Proof.
  destruct (every_character_is_in_a_window scenario_B_text
              (configurable_opts 10 2) 19 115%N eq_refl eq_refl eq_refl
              eq_refl)
    as (k & st & Hst & _ & _ & Hw).
  exists k, st. split; [exact Hst | exact Hw].
Defined.

Lemma drop_take_sub {A} (l : list A) (a b : nat) :
  drop a (take b l) = take (b - a) (drop a l).
Proof.
  destruct (le_lt_dec a b) as [Hle | Hlt].
  - replace b with (a + (b - a))%nat at 1 by lia.
    rewrite <- take_drop_commute. reflexivity.
  - replace (b - a)%nat with 0%nat by lia. rewrite take_0.
    apply drop_ge. rewrite length_take. lia.
Qed.

Lemma reached_before_end_is_regular text chunkSize overlap n st :
  0 < overlap -> overlap < chunkSize -> 0 < jslength text ->
  state_at text chunkSize overlap n initial_state = Some st ->
  endIndex_of text chunkSize st < jslength text ->
  0 <= startIndex st.
Proof.
  intros Hov Hcs Hlen Hst Hend.
  pose proof (turns_to_end_nonneg text chunkSize overlap Hov Hcs Hlen) as Hq.
  destruct (Z.le_gt_cases (Z.of_nat n)
              (turns_to_end (jslength text) chunkSize overlap)) as [Hle | Hgt].
  - destruct (regular_turn text chunkSize overlap Hov Hcs Hlen n Hle)
      as (st' & Hst' & Hstart).
    rewrite Hst in Hst'. injection Hst' as <-. nia.
  - destruct (tail_turn text chunkSize overlap Hov Hcs Hlen
                (n - S (Z.to_nat (turns_to_end (jslength text) chunkSize
                                               overlap))))
      as (st' & Hst' & Hstart).
    replace (S (Z.to_nat (turns_to_end (jslength text) chunkSize overlap))
             + (n - S (Z.to_nat (turns_to_end (jslength text) chunkSize
                                              overlap))))%nat
      with n in Hst' by lia.
    rewrite Hst in Hst'. injection Hst' as <-.
    unfold endIndex_of in Hend. lia.
Qed.

(** X3.  Under [0 < overlap < chunkSize], a window that the loop takes
    and that ends before [text.length] is followed by a window that begins
    with its last [overlap] characters: consecutive windows share exactly
    the overlap. *)
Theorem consecutive_windows_share_overlap :
  forall (text : jsstring) (o : Options) (n : nat) (st : LoopState),
    0 < overlap_of o -> overlap_of o < chunkSize_of o ->
    let chunkSize := chunkSize_of o in
    let overlap := overlap_of o in
    state_at text chunkSize overlap n initial_state = Some st ->
    endIndex_of text chunkSize st < jslength text ->
    exists st' : LoopState,
      state_at text chunkSize overlap (S n) initial_state = Some st'
      /\ jslength (window_of text chunkSize st) = chunkSize
      /\ drop (Z.to_nat (chunkSize - overlap)) (window_of text chunkSize st)
         = take (Z.to_nat overlap) (window_of text chunkSize st')
      /\ jslength (take (Z.to_nat overlap) (window_of text chunkSize st'))
         = overlap.
Proof.
  intros text o n st Hov Hcs chunkSize overlap Hst Hend.
  assert (Hlen : 0 < jslength text).
  { unfold endIndex_of in Hend. destruct text; [|unfold jslength; simpl; lia].
    unfold jslength in *. simpl in *.
    assert (Hi : startIndex st < 0) by lia.
    destruct n as [|n]; [injection Hst as <-; simpl in Hi; lia|].
    simpl in Hst. discriminate Hst. }
  pose proof (reached_before_end_is_regular text chunkSize overlap n st
                Hov Hcs Hlen Hst Hend) as Hs0.
  pose proof (state_at_inside text chunkSize overlap n initial_state st
                Hlen Hst) as Hin.
  exists (loop_body text chunkSize overlap st).
  split; [apply turn_succ_body; assumption|].
  assert (Hin' : startIndex (loop_body text chunkSize overlap st)
                 < jslength text)
    by (rewrite loop_body_start; lia).
  rewrite !window_slice by (assumption || (unfold chunkSize; lia)).
  rewrite loop_body_start.
  assert (He : endIndex_of text chunkSize st = startIndex st + chunkSize)
    by (unfold endIndex_of in *; lia).
  assert (He' : endIndex_of text chunkSize st
                <= endIndex_of text chunkSize
                     (loop_body text chunkSize overlap st)).
  { unfold endIndex_of at 2. rewrite loop_body_start. lia. }
  unfold jslength in *.
  split; [rewrite length_take, length_drop; lia|]. split.
  - rewrite take_take, drop_take_sub, drop_drop.
    f_equal; [lia | f_equal; lia].
  - rewrite take_take, length_take, length_drop. lia.
Qed.

Lemma consecutive_windows_share_overlap_witness :
  exists st' : LoopState,
    state_at scenario_B_text 10 2 3 initial_state = Some st'
    /\ drop 8 (window_of scenario_B_text 10 scenario_B_turn_2)
       = take 2 (window_of scenario_B_text 10 st').
Proof.
  destruct (consecutive_windows_share_overlap scenario_B_text
              (configurable_opts 10 2) 2 scenario_B_turn_2
              eq_refl eq_refl eq_refl eq_refl)
    as (st' & Hst' & _ & Hshare & _).
  exists st'. split; [exact Hst' | exact Hshare].
Defined.

(** X4.  Under [0 < overlap < chunkSize], once the window that ends at
    [text.length] has been taken, every further turn starts at
    [text.length - overlap] and takes the same window, the last [overlap]
    characters of the text; when these are not all whitespace each of those
    turns pushes one more copy of their trimmed form, otherwise the list of
    chunks stays as it is. *)
Theorem tail_window_is_repeated :
  forall (text : jsstring) (o : Options) (m : nat),
    all_ws text = false ->
    0 < overlap_of o -> overlap_of o < chunkSize_of o ->
    let chunkSize := chunkSize_of o in
    let overlap := overlap_of o in
    let first_repeat :=
      S (Z.to_nat (turns_to_end (jslength text) chunkSize overlap)) in
    let tail := substring text (jslength text - overlap) (jslength text) in
    exists st0 stm : LoopState,
      state_at text chunkSize overlap first_repeat initial_state = Some st0
      /\ state_at text chunkSize overlap (first_repeat + m) initial_state
         = Some stm
      /\ startIndex stm = jslength text - overlap
      /\ window_of text chunkSize stm = tail
      /\ List.map chunk_text (chunks stm)
         = List.map chunk_text (chunks st0)
           ++ (if nonempty (trim tail) then repeat (trim tail) m else []).
Proof.
  intros text o m Hws Hov Hcs chunkSize overlap first_repeat tail.
  pose proof (not_all_ws_length text Hws) as Hlen.
  destruct (tail_turn text chunkSize overlap Hov Hcs Hlen 0)
    as (st0 & Hst0 & Hstart0).
  rewrite Nat.add_0_r in Hst0. fold first_repeat in Hst0.
  exists st0.
  induction m as [|m IH].
  - exists st0. rewrite Nat.add_0_r. split; [exact Hst0|].
    split; [exact Hst0|]. split; [exact Hstart0|].
    split; [apply (tail_window text chunkSize overlap Hov Hcs Hlen);
            exact Hstart0|].
    destruct (nonempty (trim tail)); simpl; rewrite app_nil_r; reflexivity.
  - destruct IH as (stm & _ & Hstm & Hstart & Hwin & Htexts).
    exists (loop_body text chunkSize overlap stm).
    split; [exact Hst0|]. split.
    { replace (first_repeat + S m)%nat with (S (first_repeat + m)) by lia.
      apply (turn_succ_body text chunkSize overlap Hov Hcs Hlen);
        [exact Hstm | lia]. }
    assert (Hstart' : startIndex (loop_body text chunkSize overlap stm)
                      = jslength text - overlap).
    { rewrite loop_body_start. unfold endIndex_of. lia. }
    split; [exact Hstart'|].
    split; [apply (tail_window text chunkSize overlap Hov Hcs Hlen);
            exact Hstart'|].
    rewrite loop_body_chunks, Hwin, map_app, Htexts.
    destruct (nonempty (trim tail)); simpl.
    + rewrite <- app_assoc. f_equal.
      change (trim tail :: repeat (trim tail) m)
        with (repeat (trim tail) (S m)).
      rewrite <- repeat_cons. reflexivity.
    + rewrite !app_nil_r. reflexivity.
Qed.

Lemma tail_window_is_repeated_witness :
  exists st0 stm : LoopState,
    state_at (lit "Hello world") 10 2 2 initial_state = Some st0
    /\ state_at (lit "Hello world") 10 2 5 initial_state = Some stm
    /\ List.map chunk_text (chunks stm)
       = List.map chunk_text (chunks st0) ++ repeat (lit "ld") 3.
Proof.
  destruct (tail_window_is_repeated (lit "Hello world")
              (configurable_opts 10 2) 3 eq_refl eq_refl eq_refl)
    as (st0 & stm & H0 & Hm & _ & _ & Ht).
  exists st0, stm. split; [exact H0|]. split; [exact Hm | exact Ht].
Defined.

(** ** When configurable mode returns *)

Lemma negative_overlap_loop_ends text chunkSize overlap fuel st :
  0 < chunkSize -> overlap < 0 ->
  Z.max 0 (jslength text - startIndex st) < Z.of_nat fuel ->
  is_Some (while_loop text chunkSize overlap fuel st).
Proof.
  intros Hcs Hov. revert st.
  induction fuel as [|fuel IH]; intros st Hfuel; [lia|].
  - simpl. destruct (loop_iteration text chunkSize overlap st) as [st'|r]
      eqn:Hi; [|eexists; reflexivity].
    apply iteration_continue_inv in Hi as (-> & Hst & _).
    apply IH. rewrite loop_body_start. unfold endIndex_of. lia.
Qed.

(** X5.  With a positive chunk size, [configurableChunk] returns exactly
    when the text is blank or the overlap in use is negative; in the
    second case it returns within [text.length + 1] turns of the loop.  An
    overlap that is positive, or 0 (which is replaced by 50), never lets a
    call on a text that is not blank return. *)
Theorem configurableChunk_returns_iff :
  forall (text : jsstring) (o : Options),
    0 < chunkSize_of o ->
    ((exists fuel, is_Some (configurableChunk fuel text o))
     <-> all_ws text = true \/ overlap_of o < 0)
    /\ (overlap_of o < 0 ->
        is_Some (configurableChunk (S (length text)) text o)).
Proof.
  intros text o Hcs.
  assert (Hneg : overlap_of o < 0 ->
                 is_Some (configurableChunk (S (length text)) text o)).
  { intros Hov. unfold configurableChunk.
    destruct (is_blank text); [eexists; reflexivity|].
    apply negative_overlap_loop_ends; [exact Hcs | exact Hov|].
    unfold jslength. simpl. lia. }
  split; [|exact Hneg]. split.
  - intros [fuel Hret].
    destruct (all_ws text) eqn:Hws; [left; reflexivity|]. right.
    destruct (Z.lt_ge_cases (overlap_of o) 0) as [Hlt | Hge]; [exact Hlt|].
    assert (Hpos : 0 < overlap_of o).
    { unfold overlap_of, num_or in *. destruct (opt_overlap o) as [z|]; [|lia].
      destruct (z =? 0) eqn:E; [lia | apply Z.eqb_neq in E; lia]. }
    rewrite configurableChunk_never_returns in Hret;
      [destruct Hret as [x Hx]; discriminate Hx
      | rewrite is_blank_all_ws; exact Hws | exact Hpos].
  - intros [Hws | Hov].
    + exists 0%nat. unfold configurableChunk.
      rewrite is_blank_all_ws, Hws. eexists; reflexivity.
    + eexists. apply Hneg. exact Hov.
Qed.

Lemma configurableChunk_returns_iff_witness :
  is_Some (configurableChunk 4 (lit "abc") fast_opts)
  /\ ((exists fuel, is_Some (configurableChunk fuel (lit "abc")
                                              (configurable_opts 10 2)))
      -> False).
Proof.
  split.
  - exact (proj2 (configurableChunk_returns_iff (lit "abc") fast_opts eq_refl)
             eq_refl).
  - intros H.
    destruct (proj1 (proj1 (configurableChunk_returns_iff (lit "abc")
                (configurable_opts 10 2) eq_refl)) H) as [Hws | Hov];
      [discriminate Hws | vm_compute in Hov; discriminate Hov].
Defined.

(** ** The estimate, further *)

Lemma filter_map_length {A B} (f : B -> bool) (g : A -> B) (l : list A) :
  length (List.filter f (List.map g l))
  = length (List.filter (fun x => f (g x)) l).
Proof.
  induction l as [|x l IH]; [reflexivity|]. simpl.
  destruct (f (g x)); simpl; rewrite IH; reflexivity.
Qed.

(** X6.  In semantic mode [estimateChunks] is exact: for every text it
    returns the number of chunks that [chunkText] returns. *)
Theorem estimate_is_exact_in_semantic_mode :
  forall (fuel : nat) (text : jsstring) (o : Options),
    opt_mode o = Some (lit "semantic") ->
    exists r : list Chunk,
      chunkText fuel text o = Some r
      /\ estimateChunks text o = Num (Z.of_nat (length r)).
Proof.
  intros fuel text o Hmode.
  pose proof (is_semantic_mode o Hmode) as Hs.
  exists (semanticChunk text). unfold chunkText, estimateChunks. rewrite Hs.
  split; [reflexivity|].
  unfold semanticChunk. destruct (is_blank text) eqn:Hb; [reflexivity|].
  pose proof (filter_map_length nonempty trim (split_paragraphs text)) as Hl.
  unfold nonempty in Hl at 2. rewrite <- Hl.
  destruct (List.filter nonempty (List.map trim (split_paragraphs text)))
    as [|p ps] eqn:Hf.
  - exfalso. rewrite split_paragraphs_segments in Hf.
    apply trimmed_paragraphs_nil in Hf.
    rewrite segments_ws, <- is_blank_all_ws, Hb in Hf. discriminate Hf.
  - rewrite index_chunks_length. f_equal. simpl length. lia.
Qed.

Lemma estimate_is_exact_in_semantic_mode_witness :
  exists r : list Chunk,
    chunkText 0 three_paragraphs semantic_opts = Some r
    /\ estimateChunks three_paragraphs semantic_opts
       = Num (Z.of_nat (length r)).
Proof.
  exact (estimate_is_exact_in_semantic_mode 0 three_paragraphs semantic_opts
           eq_refl).
Defined.

(** X7.  In configurable mode, for a text that is not blank and longer
    than the chunk size in use, the estimate depends on how the overlap in
    use compares with the chunk size: below it the estimate is an integer
    of at least 2; equal to it (as with [chunkSize: 50] and no overlap
    given) the estimate is [Infinity]; above it the estimate is an integer
    of at most 1, and of at most 0 once the text is as long as the
    overlap. *)
Theorem estimate_by_overlap_against_size :
  forall (text : jsstring) (o : Options),
    is_semantic o = false ->
    all_ws text = false ->
    chunkSize_of o < jslength text ->
    (overlap_of o < chunkSize_of o ->
     exists k, estimateChunks text o = Num k /\ 2 <= k)
    /\ (overlap_of o = chunkSize_of o -> estimateChunks text o = PosInfinity)
    /\ (chunkSize_of o < overlap_of o ->
        exists k, estimateChunks text o = Num k /\ k <= 1
                  /\ (overlap_of o <= jslength text -> k <= 0)).
Proof.
  intros text o Hmode Hws Hlen.
  assert (He : estimateChunks text o
               = js_succ (ceil_div (jslength text - chunkSize_of o)
                                   (chunkSize_of o - overlap_of o))).
  { unfold estimateChunks. rewrite is_blank_all_ws, Hws, Hmode.
    destruct (jslength text <=? chunkSize_of o) eqn:E;
      [apply Z.leb_le in E; lia | reflexivity]. }
  rewrite He. unfold ceil_div. split; [|split].
  - intros Hov.
    destruct (chunkSize_of o - overlap_of o =? 0) eqn:E;
      [apply Z.eqb_eq in E; lia|].
    eexists. split; [reflexivity|].
    pose proof (ceiling_bounds (jslength text - chunkSize_of o)
                  (chunkSize_of o - overlap_of o) ltac:(lia)). nia.
  - intros Hov.
    replace (chunkSize_of o - overlap_of o) with 0 by lia. simpl.
    destruct (0 <? jslength text - chunkSize_of o) eqn:E;
      [reflexivity | apply Z.ltb_ge in E; lia].
  - intros Hov.
    destruct (chunkSize_of o - overlap_of o =? 0) eqn:E;
      [apply Z.eqb_eq in E; lia|].
    eexists. split; [reflexivity|]. unfold ceiling.
    set (a := jslength text - chunkSize_of o) in *.
    set (b := chunkSize_of o - overlap_of o) in *.
    assert (Hq : 0 <= - a / b).
    { replace (- a / b) with (a / - b)
        by (rewrite <- (Z.div_opp_opp a (- b)) by lia;
            rewrite Z.opp_involutive; reflexivity).
      apply Z.div_pos; lia. }
    split; [lia|]. intros Hlong.
    assert (1 <= - a / b); [|lia].
    replace (- a / b) with (a / - b)
      by (rewrite <- (Z.div_opp_opp a (- b)) by lia;
          rewrite Z.opp_involutive; reflexivity).
    apply Z.div_le_lower_bound; unfold a, b; lia.
Qed.

Lemma estimate_by_overlap_against_size_witness :
  estimateChunks (repeat 97%N 100) (mkOptions None (Some 50) None)
  = PosInfinity
  /\ exists k, estimateChunks (repeat 97%N 100) (mkOptions None (Some 10) None)
               = Num k /\ k <= 0.
Proof.
  split.
  - exact (proj1 (proj2 (estimate_by_overlap_against_size (repeat 97%N 100)
             (mkOptions None (Some 50) None) eq_refl
             ltac:(vm_compute; reflexivity) ltac:(vm_compute; reflexivity)))
             eq_refl).
  - destruct (proj2 (proj2 (estimate_by_overlap_against_size (repeat 97%N 100)
               (mkOptions None (Some 10) None) eq_refl
               ltac:(vm_compute; reflexivity) ltac:(vm_compute; reflexivity)))
               ltac:(vm_compute; reflexivity)) as (k & Hk & _ & Hle).
    exists k. split; [exact Hk|]. apply Hle. vm_compute. discriminate.
Defined.

(** ** What a chunk holds *)

Lemma trim_start_split (s : jsstring) :
  exists w, s = w ++ trim_start s /\ all_ws w = true.
Proof.
  induction s as [|c s (w & Hs & Hw)]; [exists []; split; reflexivity|].
  simpl. destruct (is_ws c) eqn:Hc.
  - exists (c :: w). split; [simpl; f_equal; exact Hs|].
    simpl. rewrite Hc. exact Hw.
  - exists []. split; reflexivity.
Qed.

Lemma trim_split (s : jsstring) :
  exists a b, s = a ++ trim s ++ b /\ all_ws a = true /\ all_ws b = true.
Proof.
  destruct (trim_start_split s) as (a & Ha & Hwa).
  destruct (trim_start_split (rev (trim_start s))) as (b & Hb & Hwb).
  exists a, (rev b). split; [|split; [exact Hwa | rewrite all_ws_rev; exact Hwb]].
  unfold trim, trim_end. rewrite <- rev_app_distr, <- Hb, rev_involutive.
  exact Ha.
Qed.

Lemma trim_infix (s : jsstring) : infix_of (trim s) s.
Proof.
  destruct (trim_split s) as (a & b & H & _). exists a, b. exact H.
Qed.

Lemma trim_start_fixed (s : jsstring) c :
  head s = Some c -> is_ws c = false -> trim_start s = s.
Proof.
  destruct s as [|d s]; [discriminate|]. intros [= ->] Hc.
  simpl. rewrite Hc. reflexivity.
Qed.

Lemma last_rev_head {A} (l : list A) : last (rev l) = head l.
Proof.
  destruct l as [|x l]; [reflexivity|]. simpl. apply last_snoc.
Qed.

Lemma head_rev_last {A} (l : list A) : head (rev l) = last l.
Proof. rewrite <- (rev_involutive l) at 2. symmetry. apply last_rev_head. Qed.

Lemma trim_last (s : jsstring) c : last (trim s) = Some c -> is_ws c = false.
Proof.
  unfold trim, trim_end. rewrite last_rev_head.
  destruct (trim_start (rev (trim_start s))) as [|d r] eqn:Ht; [discriminate|].
  intros [= <-]. exact (trim_start_head _ _ _ Ht).
Qed.

Lemma trim_head (s : jsstring) c : head (trim s) = Some c -> is_ws c = false.
Proof.
  intros Hh. unfold trim, trim_end in Hh. rewrite head_rev_last in Hh.
  destruct (trim_start s) as [|d r] eqn:Hs.
  - simpl in Hh. discriminate Hh.
  - pose proof (trim_start_head _ _ _ Hs) as Hd.
    destruct (trim_start_split (rev (d :: r))) as (w & Hw & Hws).
    assert (Hne : trim_start (rev (d :: r)) <> []).
    { intros Hnil. apply trim_start_nil in Hnil. rewrite all_ws_rev in Hnil.
      simpl in Hnil. rewrite Hd in Hnil. discriminate Hnil. }
    assert (Hl : last (rev (d :: r)) = Some d) by (simpl; apply last_snoc).
    rewrite Hw, last_app in Hl.
    destruct (last (trim_start (rev (d :: r)))) as [x|] eqn:Hx.
    + congruence.
    + apply last_None in Hx. contradiction.
Qed.

Lemma trim_trimmed_nonempty (s : jsstring) :
  nonempty (trim s) = true -> trimmed_nonempty (trim s).
Proof.
  intros Hne. unfold nonempty, jslength in Hne.
  destruct (trim s) as [|c r] eqn:Ht; [discriminate|]. rewrite <- Ht.
  split.
  - exists c. split; [rewrite Ht; reflexivity|].
    apply (trim_head s). rewrite Ht. reflexivity.
  - destruct (last (trim s)) as [x|] eqn:Hx.
    + exists x. split; [reflexivity | exact (trim_last s x Hx)].
    + apply last_None in Hx. congruence.
Qed.

Lemma trimmed_nonempty_fixed (s : jsstring) :
  trimmed_nonempty s -> trim s = s /\ s <> [] /\ all_ws s = false.
Proof.
  intros [(c & Hc & Hwc) (d & Hd & Hwd)].
  assert (Hs : trim_start s = s) by (eapply trim_start_fixed; eauto).
  split; [|split].
  - unfold trim, trim_end. rewrite Hs.
    rewrite (trim_start_fixed (rev s) d); [apply rev_involutive | | exact Hwd].
    rewrite head_rev_last. exact Hd.
  - intros ->. discriminate Hc.
  - destruct s as [|x s]; [discriminate|]. injection Hc as ->.
    simpl. rewrite Hwc. reflexivity.
Qed.

Lemma substring_infix (s : jsstring) (a b : Z) : infix_of (substring s a b) s.
Proof.
  unfold substring.
  set (n := Z.to_nat _). set (m := Z.to_nat _).
  exists (take m s), (drop n (drop m s)).
  rewrite (take_drop n (drop m s)), take_drop. reflexivity.
Qed.

Lemma infix_of_trans (a b c : jsstring) :
  infix_of a b -> infix_of b c -> infix_of a c.
Proof.
  intros (x & y & ->) (u & v & ->). exists (u ++ x), (y ++ v).
  rewrite <- !app_assoc. reflexivity.
Qed.

(** A property of chunks that every pushed chunk has holds for all the
    chunks of every state that the loop reaches and of every result. *)
Section ChunkInvariant.

Variable text : jsstring.
Variables chunkSize overlap : Z.
Variable P : jsstring -> Prop.
Hypothesis pushed :
  forall st, nonempty (trim (window_of text chunkSize st)) = true ->
             P (trim (window_of text chunkSize st)).

Lemma body_keeps st :
  Forall (fun c => P (chunk_text c)) (chunks st) ->
  Forall (fun c => P (chunk_text c))
         (chunks (loop_body text chunkSize overlap st)).
Proof using pushed.
  intros H. rewrite loop_body_chunks. apply Forall_app. split; [exact H|].
  destruct (nonempty _) eqn:Hne; [|constructor].
  constructor; [|constructor]. simpl. apply pushed. exact Hne.
Qed.

Lemma state_at_keeps n st0 st :
  Forall (fun c => P (chunk_text c)) (chunks st0) ->
  state_at text chunkSize overlap n st0 = Some st ->
  Forall (fun c => P (chunk_text c)) (chunks st).
Proof using pushed.
  revert st. induction n as [|n IH]; intros st H0.
  - intros [= <-]. exact H0.
  - rewrite state_at_succ.
    destruct (state_at text chunkSize overlap n st0) as [stn|];
      [|discriminate].
    destruct (loop_iteration text chunkSize overlap stn) as [st'|] eqn:Hi;
      [|discriminate].
    intros [= <-]. apply iteration_continue_inv in Hi as [-> _].
    apply body_keeps. apply IH; [exact H0 | reflexivity].
Qed.

Lemma while_loop_keeps fuel st r :
  Forall (fun c => P (chunk_text c)) (chunks st) ->
  while_loop text chunkSize overlap fuel st = Some r ->
  Forall (fun c => P (chunk_text c)) r.
Proof using pushed.
  revert st. induction fuel as [|fuel IH]; intros st Hst; [discriminate|].
  simpl. destruct (loop_iteration text chunkSize overlap st) as [st'|r']
    eqn:Hi.
  - apply iteration_continue_inv in Hi as [-> _].
    apply IH. apply body_keeps. exact Hst.
  - intros [= <-]. apply iteration_return_inv in Hi as [-> | ->].
    + exact Hst.
    + apply body_keeps. exact Hst.
Qed.

End ChunkInvariant.

Lemma semanticChunk_texts text :
  List.map chunk_text (semanticChunk text)
  = List.filter nonempty (List.map trim (SemanticSpec.segments text)).
Proof.
  rewrite semanticChunk_paragraph_chunks. apply index_chunks_text.
Qed.

Lemma semanticChunk_text_origin text c :
  c ∈ semanticChunk text ->
  exists seg, seg ∈ SemanticSpec.segments text
              /\ chunk_text c = trim seg /\ nonempty (trim seg) = true.
Proof.
  intros Hc.
  assert (Hin : In (chunk_text c) (List.map chunk_text (semanticChunk text))).
  { apply in_map. apply list_elem_of_In. exact Hc. }
  rewrite semanticChunk_texts in Hin.
  apply filter_In in Hin as [Hin Hne].
  apply in_map_iff in Hin as (seg & Hseg & Hin).
  exists seg. split; [apply list_elem_of_In; exact Hin|].
  split; [symmetry; exact Hseg|]. rewrite Hseg. exact Hne.
Qed.

(** X8.  No chunk is empty and no chunk begins or ends with whitespace:
    this holds for every chunk of every sequence that [chunkText] returns,
    in either mode, and for every chunk that the loop of configurable mode
    has pushed at any turn; trimming such a chunk again changes nothing. *)
Theorem chunks_are_trimmed_and_not_empty :
  forall (fuel n : nat) (text : jsstring) (o : Options),
    (forall r c, chunkText fuel text o = Some r -> c ∈ r ->
       trimmed_nonempty (chunk_text c)
       /\ trim (chunk_text c) = chunk_text c /\ chunk_text c <> [])
    /\ (forall st c,
          state_at text (chunkSize_of o) (overlap_of o) n initial_state
          = Some st ->
          c ∈ chunks st ->
          trimmed_nonempty (chunk_text c)
          /\ trim (chunk_text c) = chunk_text c /\ chunk_text c <> []).
Proof.
  intros fuel n text o.
  assert (Hfix : forall s, trimmed_nonempty s ->
                           trimmed_nonempty s /\ trim s = s /\ s <> []).
  { intros s Hs. destruct (trimmed_nonempty_fixed s Hs) as (H1 & H2 & _).
    auto. }
  assert (Hpush : forall st,
            nonempty (trim (window_of text (chunkSize_of o) st)) = true ->
            trimmed_nonempty (trim (window_of text (chunkSize_of o) st)))
    by (intros st; apply trim_trimmed_nonempty).
  split.
  - intros r c Hrun Hc. apply Hfix. revert Hrun. unfold chunkText.
    destruct (is_semantic o).
    + intros [= <-].
      destruct (semanticChunk_text_origin text c Hc) as (seg & _ & -> & Hne).
      apply trim_trimmed_nonempty. exact Hne.
    + unfold configurableChunk. destruct (is_blank text).
      * intros [= <-]. apply elem_of_nil in Hc. contradiction.
      * intros Hrun.
        pose proof (while_loop_keeps text (chunkSize_of o) (overlap_of o)
                      trimmed_nonempty Hpush fuel initial_state r
                      (Forall_nil_2 _) Hrun) as Hall.
        rewrite Forall_forall in Hall. apply Hall. exact Hc.
  - intros st c Hst Hc. apply Hfix.
    pose proof (state_at_keeps text (chunkSize_of o) (overlap_of o)
                  trimmed_nonempty Hpush n initial_state st
                  (Forall_nil_2 _) Hst) as Hall.
    rewrite Forall_forall in Hall. apply Hall. exact Hc.
Qed.

Lemma chunks_are_trimmed_and_not_empty_witness :
  trim (lit "rld. This") = lit "rld. This"
  /\ trimmed_nonempty (lit "rld. This").
Proof.
  destruct (proj2 (chunks_are_trimmed_and_not_empty 0 2 scenario_B_text
                     (configurable_opts 10 2))
              scenario_B_turn_2 (mkChunk (lit "rld. This") 1) eq_refl
              ltac:(right; left)) as (Ht & Hfix & _).
  split; [exact Hfix | exact Ht].
Defined.

(** ** The segments of semantic mode *)

Section SegmentLemmas.

Import SemanticSpec.

Lemma drop_newlines_split s :
  exists nl, s = nl ++ drop_newlines s
             /\ Forall (fun c => c = NL) nl
             /\ starts_with_newline (drop_newlines s) = false.
Proof.
  induction s as [|c s (nl & Hs & Hnl & Hstart)].
  - exists []. repeat split; constructor.
  - simpl. destruct (is_newline c) eqn:Hc.
    + exists (c :: nl). split; [simpl; f_equal; exact Hs|].
      split; [|exact Hstart]. constructor; [|exact Hnl].
      apply N.eqb_eq. exact Hc.
    + exists []. split; [reflexivity|]. split; [constructor|].
      simpl. exact Hc.
Qed.

Lemma until_break_split s p rest :
  until_break s = (p, Some rest) ->
  exists sep, s = p ++ sep ++ rest /\ newline_run sep
              /\ starts_with_newline rest = false.
Proof.
  revert p. induction s as [|c s IH]; intros p; simpl; [discriminate|].
  destruct (is_newline c && starts_with_newline s) eqn:Hb.
  - intros [= <- <-]. apply andb_prop in Hb as [Hc Hs].
    destruct (drop_newlines_split s) as (nl & Hsplit & Hnl & Hstart).
    exists (c :: nl). split; [simpl; f_equal; exact Hsplit|].
    split; [|exact Hstart]. split.
    + destruct nl as [|x nl]; [|simpl; lia].
      simpl in Hsplit. rewrite <- Hsplit in Hstart. congruence.
    + constructor; [apply N.eqb_eq; exact Hc | exact Hnl].
  - destruct (until_break s) as [q r] eqn:Hu. intros [= <- ->].
    destruct (IH q eq_refl) as (sep & Hs & Hsep & Hstart).
    exists sep. split; [simpl; f_equal; exact Hs|]. split; assumption.
Qed.

Lemma until_break_head s :
  starts_with_newline (fst (until_break s)) = true ->
  starts_with_newline s = true.
Proof.
  destruct s as [|c s]; simpl; [discriminate|].
  destruct (is_newline c && starts_with_newline s); [discriminate|].
  destruct (until_break s). simpl. auto.
Qed.

Lemma until_break_prefix s :
  until_break (fst (until_break s)) = (fst (until_break s), None).
Proof.
  induction s as [|c s IH]; [reflexivity|]. simpl.
  destruct (is_newline c && starts_with_newline s) eqn:Hb; [reflexivity|].
  pose proof (until_break_head s) as Hh.
  destruct (until_break s) as [q r]. simpl in *.
  destruct (is_newline c && starts_with_newline q) eqn:Hb'.
  - apply andb_prop in Hb' as [Hc Hq]. rewrite Hc, (Hh Hq) in Hb.
    discriminate Hb.
  - rewrite IH. reflexivity.
Qed.

Lemma until_break_no_break s p r : until_break s = (p, r) -> has_break p = false.
Proof.
  intros Hu. pose proof (until_break_prefix s) as Hp. rewrite Hu in Hp.
  simpl in Hp. unfold has_break. rewrite Hp. reflexivity.
Qed.

Lemma segments_upto_round_trip n s :
  (length s < n)%nat ->
  exists seps,
    length (segments_upto n s) = S (length seps)
    /\ Forall newline_run seps
    /\ interleave (segments_upto n s) seps = s
    /\ Forall (fun seg => has_break seg = false) (segments_upto n s)
    /\ Forall (fun seg => starts_with_newline seg = false)
              (tail (segments_upto n s)).
Proof.
  revert s. induction n as [|n IH]; intros s Hn; [lia|]. simpl.
  destruct (until_break s) as [p [rest|]] eqn:Hu.
  - destruct (until_break_split s p rest Hu) as (sep & Hs & Hsep & Hstart).
    pose proof (until_break_shorter s p rest Hu) as Hshort.
    destruct (IH rest ltac:(lia)) as (seps & Hlen & Hseps & Hjoin & Hnb & Hst).
    exists (sep :: seps). split; [simpl; rewrite Hlen; reflexivity|].
    split; [constructor; assumption|].
    split; [simpl; rewrite Hjoin; symmetry; exact Hs|].
    split; [constructor; [exact (until_break_no_break s p _ Hu) | exact Hnb]|].
    simpl. destruct (segments_upto n rest) as [|seg segs] eqn:Hsegs;
      [constructor|].
    constructor; [|exact Hst].
    destruct n as [|n']; [discriminate Hsegs|]. simpl in Hsegs.
    pose proof (until_break_head rest) as Hh.
    destruct (until_break rest) as [q [r|]]; injection Hsegs as <- _;
      simpl in Hh; destruct (starts_with_newline q); try reflexivity;
      rewrite Hh in Hstart by reflexivity; discriminate Hstart.
  - exists []. split; [reflexivity|]. split; [constructor|].
    pose proof (until_break_none s p Hu) as ->.
    split; [reflexivity|]. split; [|constructor].
    constructor; [exact (until_break_no_break s s _ Hu) | constructor].
Qed.

Lemma segments_upto_infix n s seg :
  seg ∈ segments_upto n s -> infix_of seg s.
Proof.
  revert s. induction n as [|n IH]; intros s; simpl;
    [intros H; apply elem_of_nil in H; contradiction|].
  destruct (until_break s) as [p [rest|]] eqn:Hu.
  - destruct (until_break_split s p rest Hu) as (sep & Hs & _ & _).
    intros [-> | Hin]%elem_of_cons.
    + exists [], (sep ++ rest). exact Hs.
    + apply (infix_of_trans _ rest); [apply IH; exact Hin|].
      exists (p ++ sep), []. rewrite app_nil_r, <- app_assoc. exact Hs.
  - pose proof (until_break_none s p Hu) as ->.
    intros ->%list_elem_of_singleton. exists [], []. rewrite app_nil_r.
    reflexivity.
Qed.

Lemma has_break_true s :
  has_break s = true <-> exists x y, s = x ++ NL :: NL :: y.
Proof.
  split.
  - induction s as [|c s IH]; unfold has_break; simpl; [discriminate|].
    destruct (is_newline c && starts_with_newline s) eqn:Hb.
    + intros _. apply andb_prop in Hb as [Hc Hs].
      destruct s as [|d s]; [discriminate|]. simpl in Hs.
      apply N.eqb_eq in Hc, Hs. subst. exists [], s. reflexivity.
    + unfold has_break in IH. destruct (until_break s) as [q [r|]];
        [|discriminate].
      intros _. destruct (IH eq_refl) as (x & y & ->).
      exists (c :: x), y. reflexivity.
  - intros (x & y & ->). induction x as [|c x IH]; unfold has_break; simpl.
    + reflexivity.
    + destruct (is_newline c && starts_with_newline (x ++ NL :: NL :: y));
        [reflexivity|].
      unfold has_break in IH.
      destruct (until_break (x ++ NL :: NL :: y)) as [q [r|]];
        [reflexivity | discriminate].
Qed.

Lemma has_break_infix a b :
  infix_of a b -> has_break b = false -> has_break a = false.
Proof.
  intros (u & v & ->) Hb. destruct (has_break a) eqn:Ha; [|reflexivity].
  apply has_break_true in Ha as (x & y & ->).
  assert (Ht : has_break (u ++ (x ++ NL :: NL :: y) ++ v) = true).
  { apply has_break_true. exists (u ++ x), (y ++ v).
    rewrite <- !app_assoc. reflexivity. }
  congruence.
Qed.

End SegmentLemmas.

(** X9.  Splitting on [/\n\n+/] loses nothing but the separators: the
    text is its segments put back together with runs of two or more
    newlines between them; no segment contains two newlines in a row, and
    no segment after the first begins with a newline. *)
Theorem split_paragraphs_round_trip :
  forall text : jsstring,
    exists seps : list jsstring,
      length (split_paragraphs text) = S (length seps)
      /\ Forall newline_run seps
      /\ interleave (split_paragraphs text) seps = text
      /\ Forall (fun seg => SemanticSpec.has_break seg = false)
                (split_paragraphs text)
      /\ Forall (fun seg => SemanticSpec.starts_with_newline seg = false)
                (tail (split_paragraphs text)).
Proof.
  intros text. rewrite split_paragraphs_segments.
  apply segments_upto_round_trip. lia.
Qed.

(** X10.  Every chunk is a run of consecutive characters of the input
    text: this holds for every chunk of every sequence that [chunkText]
    returns, in either mode, and for every chunk that the loop of
    configurable mode has pushed at any turn. *)
Theorem chunks_are_pieces_of_the_text :
  forall (fuel n : nat) (text : jsstring) (o : Options),
    (forall r c, chunkText fuel text o = Some r -> c ∈ r ->
                 infix_of (chunk_text c) text)
    /\ (forall st c,
          state_at text (chunkSize_of o) (overlap_of o) n initial_state
          = Some st ->
          c ∈ chunks st -> infix_of (chunk_text c) text).
Proof.
  intros fuel n text o.
  assert (Hpush : forall st,
            nonempty (trim (window_of text (chunkSize_of o) st)) = true ->
            (fun s => infix_of s text)
              (trim (window_of text (chunkSize_of o) st))).
  { intros st _. apply (infix_of_trans _ (window_of text (chunkSize_of o) st)).
    - apply trim_infix.
    - apply substring_infix. }
  split.
  - intros r c. unfold chunkText. destruct (is_semantic o).
    + intros [= <-] Hc.
      destruct (semanticChunk_text_origin text c Hc) as (seg & Hseg & -> & _).
      apply (infix_of_trans _ seg); [apply trim_infix|].
      exact (segments_upto_infix _ _ _ Hseg).
    + unfold configurableChunk. destruct (is_blank text).
      * intros [= <-] Hc. apply elem_of_nil in Hc. contradiction.
      * intros Hrun Hc.
        pose proof (while_loop_keeps text (chunkSize_of o) (overlap_of o)
                      (fun s => infix_of s text) Hpush fuel initial_state r
                      (Forall_nil_2 _) Hrun) as Hall.
        rewrite Forall_forall in Hall. apply Hall. exact Hc.
  - intros st c Hst Hc.
    pose proof (state_at_keeps text (chunkSize_of o) (overlap_of o)
                  (fun s => infix_of s text) Hpush n initial_state st
                  (Forall_nil_2 _) Hst) as Hall.
    rewrite Forall_forall in Hall. apply Hall. exact Hc.
Qed.

Lemma chunks_are_pieces_of_the_text_witness :
  infix_of (lit "Para two.") three_paragraphs.
Proof.
  exact (proj1 (chunks_are_pieces_of_the_text 0 0 three_paragraphs
                  semantic_opts)
           _ (mkChunk (lit "Para two.") 1) eq_refl ltac:(right; left)).
Defined.

(** X11.  Semantic chunking leaves its own chunks alone: chunking the
    text of any chunk that semantic mode returned gives that text back as
    a single chunk of index 0. *)
Theorem semantic_chunks_are_single_paragraphs :
  forall (fuel fuel' : nat) (text : jsstring) (o : Options)
         (r : list Chunk) (c : Chunk),
    opt_mode o = Some (lit "semantic") ->
    chunkText fuel text o = Some r ->
    c ∈ r ->
    chunkText fuel' (chunk_text c) o = Some [mkChunk (chunk_text c) 0].
Proof.
  intros fuel fuel' text o r c Hmode Hrun Hc.
  pose proof (is_semantic_mode o Hmode) as Hs.
  unfold chunkText in *. rewrite Hs in *. injection Hrun as <-. f_equal.
  destruct (semanticChunk_text_origin text c Hc) as (seg & Hseg & Ht & Hne).
  pose proof (trim_trimmed_nonempty seg Hne) as Htn. rewrite <- Ht in Htn.
  destruct (trimmed_nonempty_fixed _ Htn) as (Hfix & _ & Hws).
  assert (Hnb : SemanticSpec.has_break (chunk_text c) = false).
  { apply (has_break_infix _ seg); [rewrite Ht; apply trim_infix|].
    unfold SemanticSpec.segments in Hseg.
    destruct (segments_upto_round_trip (S (length text)) text ltac:(lia))
      as (_ & _ & _ & _ & Hall & _).
    rewrite Forall_forall in Hall. apply Hall. exact Hseg. }
  rewrite semanticChunk_paragraph_chunks.
  unfold SemanticSpec.paragraph_chunks.
  rewrite (segments_no_break _ Hnb). simpl.
  rewrite nonempty_trim, Hws, Hfix. reflexivity.
Qed.

Lemma semantic_chunks_are_single_paragraphs_witness :
  chunkText 3 (lit "Para two.") semantic_opts
  = Some [mkChunk (lit "Para two.") 0].
Proof.
  exact (semantic_chunks_are_single_paragraphs 0 3 three_paragraphs
           semantic_opts _ (mkChunk (lit "Para two.") 1) eq_refl eq_refl
           ltac:(right; left)).
Defined.

(** ** Document ids *)

Lemma digits_of_uint_inj d1 d2 :
  digits_of_uint d1 = digits_of_uint d2 -> d1 = d2.
Proof.
  revert d2. induction d1 as [|d1 IH|d1 IH|d1 IH|d1 IH|d1 IH|d1 IH|d1 IH
                              |d1 IH|d1 IH|d1 IH];
    intros d2; destruct d2; simpl; intros H; try discriminate H;
    try reflexivity; injection H as H; f_equal; apply IH; exact H.
Qed.

Lemma string_of_nat_inj n m : string_of_nat n = string_of_nat m -> n = m.
Proof.
  unfold string_of_nat. intros H. apply digits_of_uint_inj in H.
  rewrite <- (DecimalNat.Unsigned.of_to n), <- (DecimalNat.Unsigned.of_to m).
  rewrite H. reflexivity.
Qed.

(** X12.  The documents of one call of [createChunkedDocuments] have
    pairwise different ids: two positions that carry the same id are the
    same position. *)
Theorem document_ids_are_distinct :
  forall (fuel : nat) (baseId text : jsstring) (o : Options)
         (bm : gmap jsstring MetaValue) (docs : list ChunkedDocument)
         (i j : nat) (d1 d2 : ChunkedDocument),
    createChunkedDocuments fuel baseId text o bm = Some docs ->
    docs !! i = Some d1 -> docs !! j = Some d2 ->
    doc_id d1 = doc_id d2 -> i = j.
Proof.
  intros fuel baseId text o bm docs i j d1 d2 Hd Hi Hj Heq.
  destruct (chunkText fuel text o) as [cs|] eqn:Hrun;
    [|unfold createChunkedDocuments in Hd; rewrite Hrun in Hd; discriminate].
  rewrite (createChunkedDocuments_lookup _ _ _ _ _ _ _ i Hrun Hd) in Hi.
  rewrite (createChunkedDocuments_lookup _ _ _ _ _ _ _ j Hrun Hd) in Hj.
  destruct (cs !! i) as [ci|]; [|discriminate].
  destruct (cs !! j) as [cj|]; [|discriminate].
  injection Hi as <-. injection Hj as <-.
  unfold chunk_document in Heq. cbn [doc_id] in Heq.
  apply app_inv_head in Heq. apply app_inv_head in Heq.
  apply string_of_nat_inj in Heq. lia.
Qed.

Lemma document_ids_are_distinct_witness :
  createChunkedDocuments 0 (lit "doc1") two_paragraphs semantic_opts
                         clashing_metadata = Some scenario_D_documents
  /\ doc_id (chunk_document (lit "doc1") semantic_opts clashing_metadata 2 0
               (mkChunk (lit "Para one.") 0))
     <> doc_id (chunk_document (lit "doc1") semantic_opts clashing_metadata
                  2 1 (mkChunk (lit "Para two.") 1)).
Proof.
  split; [reflexivity|]. intros Heq.
  pose proof (document_ids_are_distinct 0 (lit "doc1") two_paragraphs
                semantic_opts clashing_metadata scenario_D_documents
                0 1 _ _ eq_refl eq_refl eq_refl Heq) as H.
  discriminate H.
Defined.

(** ** The batch helper *)

Section BatchLemmas.

Variables Server Response : Type.
Variable post_add_update :
  Server -> AddUpdateBody -> Server * CallResult Response.

Local Abbreviation loop := (batch_loop Server Response post_add_update).

Lemma batch_loop_accounts collectionName idField documents :
  forall srv rs es,
    exists rs' es',
      loop srv collectionName idField documents rs es
      = (store_after Server Response post_add_update srv collectionName
                     idField documents,
         (rs ++ rs', es ++ es'))
      /\ (length rs' + length es' = length documents)%nat
      /\ sublist (List.map fst es') documents.
Proof.
  induction documents as [|doc rest IH]; intros srv rs es.
  - exists [], []. rewrite !app_nil_r. repeat split. constructor.
  - simpl.
    destruct (post_add_update srv (add_update_body collectionName idField doc))
      as [srv' [data|error]] eqn:Hpost; simpl.
    + destruct (IH srv' (rs ++ [data]) es) as (rs' & es' & Hl & Hn & Hs).
      exists (data :: rs'), es'. rewrite Hl, <- app_assoc.
      split; [reflexivity|]. split; [simpl; lia|].
      apply sublist_cons. exact Hs.
    + destruct (IH srv' rs (es ++ [(doc, error)])) as (rs' & es' & Hl & Hn & Hs).
      exists rs', ((doc, error) :: es'). rewrite Hl, <- app_assoc.
      split; [reflexivity|]. split; [simpl; lia|].
      simpl. apply sublist_skip. exact Hs.
Qed.

End BatchLemmas.

(** X13.  [batchAddDocuments] sends one request for every document, in
    order, and goes on after a failure: the store ends in the state that
    the requests for all the documents leave; the counts [successful] and
    [failed] add up to the number of documents and are the lengths of
    [results] and [errors]; [success] holds exactly when nothing failed;
    and the documents listed in [errors] are documents of the batch, in
    their order. *)
Theorem batch_accounts_for_every_document :
  forall (Server Response : Type)
         (post_add_update :
            Server -> AddUpdateBody -> Server * CallResult Response)
         (srv : Server) (collectionName idField : jsstring)
         (documents : list BatchDocument),
    let out := batchAddDocuments Server Response post_add_update srv
                 collectionName documents idField in
    fst out = store_after Server Response post_add_update srv collectionName
                          idField documents
    /\ successful (snd out) + failed (snd out) = Z.of_nat (length documents)
    /\ successful (snd out) = Z.of_nat (length (results (snd out)))
    /\ failed (snd out) = Z.of_nat (length (errors (snd out)))
    /\ (success (snd out) = true <-> errors (snd out) = [])
    /\ sublist (List.map fst (errors (snd out))) documents.
Proof.
  intros Server Response post srv collectionName idField documents out.
  unfold out, batchAddDocuments.
  destruct (batch_loop_accounts Server Response post collectionName idField
              documents srv [] []) as (rs & es & -> & Hn & Hs).
  simpl. repeat split; try lia; try exact Hs.
  - intros H. apply Z.eqb_eq in H. destruct es; [reflexivity | simpl in H; lia].
  - intros ->. reflexivity.
Qed.

(** ** What the route sends for a chunk *)

Lemma chunk_metadata_not_empty baseId o bm total index :
  (0 <? Z.of_nat (size (chunk_metadata baseId o bm total index))) = true.
Proof.
  apply Z.ltb_lt.
  assert (size (chunk_metadata baseId o bm total index) <> 0%nat); [|lia].
  apply map_size_non_empty_iff. intros Hempty.
  pose proof (metadata_chunk_mode baseId o bm total index) as Hl.
  rewrite Hempty, lookup_empty in Hl. discriminate Hl.
Qed.

Lemma union_lookup_default (m f : gmap jsstring MetaValue) k v :
  f !! k = Some v -> (m ∪ f) !! k = Some (default v (m !! k)).
Proof.
  intros Hf. rewrite lookup_union, Hf. destruct (m !! k); reflexivity.
Qed.

(** X14.  The request that the route sends to the store for the [i]-th
    chunk carries the lineage fields, flattened into the document, and the
    names of all metadata fields; its [id] (and with it [resource_id]) is
    the chunk id [baseId ++ "_chunk_" ++ (i+1)] and its [text] is the chunk
    text only if the metadata given to [createChunkedDocuments] has no
    field of that name: a metadata field [id] or [text] replaces them, the
    same value for every chunk. *)
Theorem stored_chunk_request :
  forall (fuel : nat) (name baseId text : jsstring) (o : Options)
         (bm : gmap jsstring MetaValue) (docs : list ChunkedDocument)
         (i : nat) (d : ChunkedDocument),
    createChunkedDocuments fuel baseId text o bm = Some docs ->
    docs !! i = Some d ->
    let body :=
      add_update_body name (lit "id") (as_batch_document (chunk_to_create d))
    in
    document body !! lit "id"
    = Some (default (MStr (baseId ++ lit "_chunk_" ++ string_of_nat (i + 1)))
                    (bm !! lit "id"))
    /\ resource_id (additional_params body) = document body !! lit "id"
    /\ document body !! lit "text"
       = Some (default (MStr (doc_text d)) (bm !! lit "text"))
    /\ document body !! lit "parent_doc_id" = Some (MStr baseId)
    /\ document body !! lit "chunk_index" = Some (MNum (Z.of_nat i + 1))
    /\ document body !! lit "total_chunks"
       = Some (MNum (Z.of_nat (length docs)))
    /\ document body !! lit "chunk_mode" = Some (MStr (mode_or_default o))
    /\ metadata body
       = {[ lit "chunk_mode" ]}
           ∪ ({[ lit "total_chunks" ]}
                ∪ ({[ lit "chunk_index" ]}
                     ∪ ({[ lit "parent_doc_id" ]} ∪ dom bm))).
Proof.
  intros fuel name baseId text o bm docs i d Hd Hi body.
  pose proof (document_metadata _ _ _ _ _ _ _ _ Hd Hi) as Hm.
  assert (Hid : doc_id d = baseId ++ lit "_chunk_" ++ string_of_nat (i + 1)).
  { destruct (chunkText fuel text o) as [cs|] eqn:Hrun;
      [|unfold createChunkedDocuments in Hd; rewrite Hrun in Hd; discriminate].
    rewrite (createChunkedDocuments_lookup _ _ _ _ _ _ _ i Hrun Hd) in Hi.
    destruct (cs !! i); [|discriminate]. injection Hi as <-. reflexivity. }
  assert (Hdoc : document body
                 = doc_metadata d
                   ∪ <[lit "text" := rd_text (chunk_to_create d)]>
                       {[ lit "id" := MStr (doc_id d) ]}).
  { unfold body, add_update_body, documentToSend, has_metadata_fields. simpl.
    rewrite Hm, chunk_metadata_not_empty. reflexivity. }
  assert (Hother : forall k,
            k <> lit "parent_doc_id" -> k <> lit "chunk_index" ->
            k <> lit "total_chunks" -> k <> lit "chunk_mode" ->
            doc_metadata d !! k = bm !! k).
  { intros k. rewrite Hm. apply metadata_other_key. }
  assert (Hidv : document body !! lit "id"
                 = Some (default (MStr (doc_id d)) (bm !! lit "id"))).
  { rewrite Hdoc, <- (Hother (lit "id")) by key_neq.
    apply union_lookup_default.
    rewrite lookup_insert_ne by key_neq. apply lookup_singleton_eq. }
  split; [rewrite Hidv, Hid; reflexivity|].
  split; [reflexivity|].
  split.
  { rewrite Hdoc. rewrite lookup_union.
    rewrite lookup_insert_eq. unfold chunk_to_create. simpl.
    rewrite (Hother (lit "text")) by key_neq.
    destruct (bm !! lit "text") as [v|]; reflexivity. }
  rewrite Hdoc, Hm.
  split; [apply lookup_union_Some_l, metadata_parent_doc_id|].
  split; [apply lookup_union_Some_l, metadata_chunk_index|].
  split; [apply lookup_union_Some_l, metadata_total_chunks|].
  split; [apply lookup_union_Some_l, metadata_chunk_mode|].
  unfold body, add_update_body, metadataFields, has_metadata_fields. simpl.
  rewrite Hm, chunk_metadata_not_empty. unfold chunk_metadata.
  rewrite !dom_insert_L. reflexivity.
Qed.

Lemma stored_chunk_request_witness :
  createChunkedDocuments 0 (lit "doc1") two_paragraphs semantic_opts
                         metadata_with_id
  = Some [chunk_document (lit "doc1") semantic_opts metadata_with_id 2 0
            (mkChunk (lit "Para one.") 0);
          chunk_document (lit "doc1") semantic_opts metadata_with_id 2 1
            (mkChunk (lit "Para two.") 1)]
  /\ document
       (add_update_body (lit "pages") (lit "id")
          (as_batch_document
             (chunk_to_create
                (chunk_document (lit "doc1") semantic_opts metadata_with_id
                   2 1 (mkChunk (lit "Para two.") 1)))))
     !! lit "id"
     = Some (MStr (lit "page-7")).
Proof.
  split; [reflexivity|].
  pose proof (stored_chunk_request 0 (lit "pages") (lit "doc1") two_paragraphs
                semantic_opts metadata_with_id _ 1 _ eq_refl eq_refl) as H.
  destruct H as (Hid & _). etrans; [exact Hid|]. reflexivity.
Defined.

(** ** The route after the fetch *)

Lemma semanticChunk_nil text : semanticChunk text = [] <-> all_ws text = true.
Proof.
  rewrite semanticChunk_paragraph_chunks.
  unfold SemanticSpec.paragraph_chunks.
  rewrite <- segments_ws, <- trimmed_paragraphs_nil.
  split.
  - intros H. apply (f_equal (@length _)) in H.
    rewrite index_chunks_length in H. apply length_zero_iff_nil. exact H.
  - intros ->. reflexivity.
Qed.

Lemma not_csv_rows fr :
  fr_type fr <> lit "csv" \/ fr_documents fr = [] ->
  bool_decide (fr_type fr = lit "csv")
  && (0 <? Z.of_nat (length (fr_documents fr))) = false.
Proof.
  intros [Hne | ->].
  - rewrite bool_decide_eq_false_2 by exact Hne. reflexivity.
  - apply andb_false_r.
Qed.

Lemma nonempty_not_nil (s : jsstring) : s <> [] -> nonempty s = true.
Proof. destruct s; [contradiction|]. intros _. reflexivity. Qed.

Lemma overlap_of_nonnegative o :
  (forall z, opt_overlap o = Some z -> 0 <= z) -> 0 < overlap_of o.
Proof.
  intros H. unfold overlap_of. apply num_or_pos; [lia|].
  destruct (opt_overlap o) as [z|]; [apply H; reflexivity | exact I].
Qed.

(** X15.  With chunking enabled in a mode other than semantic and an
    overlap that is absent or not negative, the route never answers for a
    fetched text that is not blank (and is not a CSV with rows): the call
    of [createChunkedDocuments] that it awaits does not return, whatever
    the store does. *)
Theorem url_fetch_with_configurable_chunking_never_answers :
  forall (Server Response : Type)
         (post_add_update :
            Server -> AddUpdateBody -> Server * CallResult Response)
         (fuel : nat) (srv : Server) (name baseId : jsstring)
         (chunkingOptions : Options) (baseMetadata : gmap jsstring MetaValue)
         (fetchResult : FetchResult),
    fr_type fetchResult <> lit "csv" \/ fr_documents fetchResult = [] ->
    all_ws (fr_text fetchResult) = false ->
    opt_mode chunkingOptions <> Some (lit "semantic") ->
    (forall z, opt_overlap chunkingOptions = Some z -> 0 <= z) ->
    url_fetch_store Server Response post_add_update fuel srv name baseId true
                    chunkingOptions baseMetadata fetchResult = None.
Proof.
  intros Server Response post fuel srv name baseId o bm fr Hcsv Hws Hmode Hov.
  unfold url_fetch_store, documents_to_create.
  rewrite (not_csv_rows fr Hcsv).
  assert (Hne : nonempty (fr_text fr) = true).
  { apply nonempty_not_nil. intros Hnil. rewrite Hnil in Hws.
    discriminate Hws. }
  rewrite Hne. simpl. unfold createChunkedDocuments, chunkText.
  assert (Hs : is_semantic o = false).
  { unfold is_semantic. apply bool_decide_eq_false. intros Heq.
    apply Hmode. unfold mode_or_default in Heq.
    destruct (opt_mode o) as [[|c m]|]; try discriminate Heq.
    rewrite Heq. reflexivity. }
  rewrite Hs, configurableChunk_never_returns;
    [reflexivity | rewrite is_blank_all_ws; exact Hws
    | apply overlap_of_nonnegative; exact Hov].
Qed.

Lemma url_fetch_with_configurable_chunking_never_answers_witness :
  url_fetch_store unit unit (fun s _ => (s, Success tt)) 1000 tt
    (lit "pages") (lit "doc1") true (configurable_opts 500 0) ∅
    (mkFetchResult (lit "html") (lit "Hello world") ∅ [])
  = None.
Proof.
  apply url_fetch_with_configurable_chunking_never_answers.
  - left. key_neq.
  - reflexivity.
  - key_neq.
  - intros z [= <-]. lia.
Defined.

(** X16.  For a fetch result that is not a CSV with rows: a fetched text
    that is not empty but all whitespace is refused with "No content" when
    chunking is enabled, in any mode and before anything is sent to the
    store; in semantic mode this is the only text that is refused; with
    chunking disabled nothing is ever refused, the text (even an empty
    one) is sent as one document. *)
Theorem url_fetch_no_content :
  forall (Server Response : Type)
         (post_add_update :
            Server -> AddUpdateBody -> Server * CallResult Response)
         (fuel : nat) (srv : Server) (name baseId : jsstring)
         (chunkingOptions : Options) (baseMetadata : gmap jsstring MetaValue)
         (fetchResult : FetchResult),
    fr_type fetchResult <> lit "csv" \/ fr_documents fetchResult = [] ->
    let route := url_fetch_store Server Response post_add_update fuel srv
                   name baseId in
    (fr_text fetchResult <> [] -> all_ws (fr_text fetchResult) = true ->
     route true chunkingOptions baseMetadata fetchResult
     = Some (srv, NoContent400))
    /\ (opt_mode chunkingOptions = Some (lit "semantic") ->
        forall srv',
          route true chunkingOptions baseMetadata fetchResult
          = Some (srv', NoContent400) ->
          fr_text fetchResult <> [] /\ all_ws (fr_text fetchResult) = true)
    /\ (exists srv' r,
          route false chunkingOptions baseMetadata fetchResult
          = Some (srv', r)
          /\ r <> NoContent400
          /\ srv' = store_after Server Response post_add_update srv name
                      (lit "id")
                      [as_batch_document
                         (mkRouteDocument baseId (MStr (fr_text fetchResult))
                            (fr_metadata fetchResult ∪ baseMetadata))]).
Proof.
  intros Server Response post fuel srv name baseId o bm fr Hcsv route.
  unfold route, url_fetch_store, documents_to_create.
  rewrite (not_csv_rows fr Hcsv). split; [|split].
  - intros Hne Hws. rewrite (nonempty_not_nil _ Hne). simpl.
    unfold createChunkedDocuments.
    assert (Hrun : chunkText fuel (fr_text fr) o = Some []).
    { unfold chunkText, semanticChunk, configurableChunk.
      rewrite is_blank_all_ws, Hws. destruct (is_semantic o); reflexivity. }
    rewrite Hrun. reflexivity.
  - intros Hmode srv'. destruct (nonempty (fr_text fr)) eqn:Hne; simpl.
    + unfold createChunkedDocuments, chunkText.
      rewrite (is_semantic_mode o Hmode).
      destruct (semanticChunk (fr_text fr)) as [|c cs] eqn:Hc.
      * intros _. split; [|apply semanticChunk_nil; exact Hc].
        intros Hnil. rewrite Hnil in Hne. discriminate Hne.
      * simpl.
        destruct (batchAddDocuments _ _ _ _ _ _ _) as [s r].
        destruct (success r); discriminate.
    + destruct (batchAddDocuments _ _ _ _ _ _ _) as [s r].
      destruct (success r); discriminate.
  - simpl.
    pose proof (batch_loop_accounts Server Response post name (lit "id")
                  [as_batch_document
                     (mkRouteDocument baseId (MStr (fr_text fr))
                        (fr_metadata fr ∪ bm))] srv [] [])
      as (rs & es & Hl & _ & _).
    unfold batchAddDocuments. rewrite Hl.
    destruct (success _); eexists _, _;
      (split; [reflexivity | split; [discriminate | reflexivity]]).
Qed.

Lemma url_fetch_no_content_witness :
  url_fetch_store unit unit (fun s _ => (s, Success tt)) 0 tt
    (lit "pages") (lit "doc1") true semantic_opts ∅
    (mkFetchResult (lit "html") (lit "  ") ∅ [])
  = Some (tt, NoContent400).
Proof.
  apply (url_fetch_no_content unit unit (fun s _ => (s, Success tt)) 0 tt
           (lit "pages") (lit "doc1") semantic_opts ∅
           (mkFetchResult (lit "html") (lit "  ") ∅ [])).
  - left. key_neq.
  - discriminate.
  - reflexivity.
Defined.

(** X17.  A fetched CSV with rows is never chunked: whatever the chunking
    switch and options are, the route makes one document per row, with the
    id [baseId ++ "_row_" ++ (i+1)] and the text of the row; in its
    metadata a field of the fetch result wins over a field of the row, and
    a field of the row over a field of the base metadata. *)
Theorem csv_rows_are_not_chunked :
  forall (fuel : nat) (baseId : jsstring) (enableChunking : bool)
         (chunkingOptions : Options) (baseMetadata : gmap jsstring MetaValue)
         (fetchResult : FetchResult),
    fr_type fetchResult = lit "csv" ->
    fr_documents fetchResult <> [] ->
    exists docs : list RouteDocument,
      documents_to_create fuel baseId enableChunking chunkingOptions
                          baseMetadata fetchResult = Some docs
      /\ length docs = length (fr_documents fetchResult)
      /\ forall (i : nat) (row : FetchedRow),
           fr_documents fetchResult !! i = Some row ->
           exists d : RouteDocument,
             docs !! i = Some d
             /\ rd_id d = baseId ++ lit "_row_" ++ string_of_nat (i + 1)
             /\ rd_text d = MStr (row_text row)
             /\ forall k : jsstring,
                  rd_metadata d !! k
                  = match fr_metadata fetchResult !! k with
                    | Some v => Some v
                    | None =>
                        match row_metadata row !! k with
                        | Some v => Some v
                        | None => baseMetadata !! k
                        end
                    end.
Proof.
  intros fuel baseId enable o bm fr Htype Hrows.
  unfold documents_to_create.
  rewrite bool_decide_eq_true_2 by exact Htype.
  destruct (fr_documents fr) as [|row0 rows] eqn:Hdocs; [contradiction|].
  simpl andb. cbv iota. eexists. split; [reflexivity|].
  split; [apply length_imap|].
  intros i row Hi. eexists. rewrite list_lookup_imap, Hi.
  split; [reflexivity|]. split; [reflexivity|]. split; [reflexivity|].
  intros k. simpl. rewrite !lookup_union.
  destruct (fr_metadata fr !! k), (row_metadata row !! k), (bm !! k);
    reflexivity.
Qed.

Lemma csv_rows_are_not_chunked_witness :
  exists docs : list RouteDocument,
    documents_to_create 0 (lit "doc1") true (configurable_opts 10 2) ∅
      (mkFetchResult (lit "csv") (lit "a,b") ∅
         [mkFetchedRow (lit "a") ∅; mkFetchedRow (lit "b") ∅])
    = Some docs
    /\ length docs = 2%nat.
Proof.
  destruct (csv_rows_are_not_chunked 0 (lit "doc1") true
              (configurable_opts 10 2) ∅
              (mkFetchResult (lit "csv") (lit "a,b") ∅
                 [mkFetchedRow (lit "a") ∅; mkFetchedRow (lit "b") ∅])
              eq_refl ltac:(discriminate)) as (docs & Hd & Hl & _).
  exists docs. split; [exact Hd | exact Hl].
Defined.

(** ** Sizes *)

Lemma trim_start_length (s : jsstring) :
  (length (trim_start s) <= length s)%nat.
Proof.
  induction s as [|c s IH]; simpl; [lia|]. destruct (is_ws c); simpl; lia.
Qed.

Lemma trim_length (s : jsstring) : jslength (trim s) <= jslength s.
Proof.
  unfold trim, trim_end, jslength. rewrite length_rev.
  pose proof (trim_start_length (rev (trim_start s))) as H1.
  rewrite length_rev in H1. pose proof (trim_start_length s). lia.
Qed.

(** X18.  With a positive chunk size no chunk of configurable mode is
    longer than the chunk size: neither a chunk that the loop has pushed
    at any turn nor a chunk of a returned sequence. *)
Theorem configurable_chunks_fit_chunk_size :
  forall (fuel n : nat) (text : jsstring) (o : Options),
    0 < chunkSize_of o ->
    (forall r c, configurableChunk fuel text o = Some r -> c ∈ r ->
                 jslength (chunk_text c) <= chunkSize_of o)
    /\ (forall st c,
          state_at text (chunkSize_of o) (overlap_of o) n initial_state
          = Some st ->
          c ∈ chunks st -> jslength (chunk_text c) <= chunkSize_of o).
Proof.
  intros fuel n text o Hcs.
  assert (Hpush : forall st,
            nonempty (trim (window_of text (chunkSize_of o) st)) = true ->
            (fun s => jslength s <= chunkSize_of o)
              (trim (window_of text (chunkSize_of o) st))).
  { intros st _. simpl.
    pose proof (trim_length (window_of text (chunkSize_of o) st)).
    pose proof (window_length text (chunkSize_of o) st ltac:(lia)). lia. }
  split.
  - intros r c. unfold configurableChunk. destruct (is_blank text).
    + intros [= <-] Hc. apply elem_of_nil in Hc. contradiction.
    + intros Hrun Hc.
      pose proof (while_loop_keeps text (chunkSize_of o) (overlap_of o)
                    (fun s => jslength s <= chunkSize_of o) Hpush fuel
                    initial_state r (Forall_nil_2 _) Hrun) as Hall.
      rewrite Forall_forall in Hall. apply Hall. exact Hc.
  - intros st c Hst Hc.
    pose proof (state_at_keeps text (chunkSize_of o) (overlap_of o)
                  (fun s => jslength s <= chunkSize_of o) Hpush n
                  initial_state st (Forall_nil_2 _) Hst) as Hall.
    rewrite Forall_forall in Hall. apply Hall. exact Hc.
Qed.

Lemma configurable_chunks_fit_chunk_size_witness :
  jslength (lit "rld. This") <= 10.
Proof.
  exact (proj2 (configurable_chunks_fit_chunk_size 0 2 scenario_B_text
                  (configurable_opts 10 2) eq_refl)
           scenario_B_turn_2 (mkChunk (lit "rld. This") 1) eq_refl
           ltac:(right; left)).
Defined.




